(** * Firewall reconciler of the agent: [agent/iptables_helper.py]

    The reconciler drives the packet filter through the helper module
    [iptc_helper].  Each function of [iptables_helper.py] is embedded as a
    program over the helper's calls; a program is run against a backend,
    which answers every call and may raise [IPTCError]. *)

From Stdlib Require Import Ascii.
From stdpp Require Import gmap strings list fin_maps pretty.

Set Default Proof Using "Type".
Set Warnings "-clear-no-such-hyp".

(** ** Rules in [iptc.easy] format

    A rule is a Python dict from match or target names to a string, a dict of
    strings ([{'dport': '80'}]) or a dict of such dicts
    ([{'LOG': {'log-prefix': ..}}]). *)

Inductive value :=
| VStr (s : string)
| VDict (d : gmap string string)
| VDict2 (d : gmap string (gmap string string)).

#[global] Instance value_eq_dec : EqDecision value.
Proof. solve_decision. Defined.

Abbreviation rule := (gmap string value).

(** the constants of [iptables_helper.py] *)
Definition TABLE : string := "filter".
Definition DROP_CHAIN : string := "WOTT_LOG_DROP".
Definition OUTPUT_CHAIN : string := "WOTT_OUTPUT".
Definition INPUT_CHAIN : string := "WOTT_INPUT".

(** ** The calls of [iptc_helper]

    [batch_add_rules] receives either a list of rules together with
    [chain=...], or a list of [(chain, rule, position)] triples. *)

Inductive batch :=
| RuleList (rules : list rule)
| TripleList (triples : list (string * rule * nat)).

Inductive iptc_helper : Type → Type :=
| has_chain (table chain : string) (ipv6 : bool) : iptc_helper bool
| add_chain (table chain : string) (ipv6 : bool) : iptc_helper unit
| flush_chain (table chain : string) (ipv6 : bool) : iptc_helper unit
| get_policy (table chain : string) (ipv6 : bool) : iptc_helper (option string)
| dump_table (table : string) (ipv6 : bool) : iptc_helper (gmap string (list rule))
| get_rule (table chain : string) (position : nat) (ipv6 : bool) :
    iptc_helper (option rule)
| add_rule (table chain : string) (rule_d : rule) (position : nat) (ipv6 : bool) :
    iptc_helper unit
| delete_rule (table chain : string) (rule_d : rule) (ipv6 raise_exc : bool) :
    iptc_helper unit
| batch_add_rules (table : string) (batch_rules : batch) (chain : option string)
    (ipv6 : bool) : iptc_helper unit.

(** ** Programs *)

Inductive exn :=
| IPTCError (msg : string)
| TypeError (msg : string)
| KeyError (key : string).

Inductive level := ERROR | DEBUG.

(** A program returns a value, calls the helper and goes on with the answer,
    logs a record, raises, or runs the suite of a [try] statement with an
    [except iptc.IPTCError] clause and goes on after it. *)
Inductive prog (A : Type) : Type :=
| Ret (a : A)
| Call {X : Type} (c : iptc_helper X) (k : X → prog A)
| Log (lvl : level) (msg : string) (k : prog A)
| Throw (e : exn)
| Try (body : prog unit) (except_iptc : string → prog unit) (k : prog A).

Arguments Ret {A} a.
Arguments Call {A X} c k.
Arguments Log {A} lvl msg k.
Arguments Throw {A} e.
Arguments Try {A} body except_iptc k.

Fixpoint bind {A B : Type} (m : prog A) (f : A → prog B) : prog B :=
  match m with
  | Ret a => f a
  | Call c k => Call c (λ x, bind (k x) f)
  | Log lvl msg k => Log lvl msg (bind k f)
  | Throw e => Throw e
  | Try body h k => Try body h (bind k f)
  end.

Declare Scope prog_scope.
Delimit Scope prog_scope with prog.
Bind Scope prog_scope with prog.
Notation "x ← y ; z" := (bind y (λ x : _, z))
  (at level 20, y at level 100, z at level 200, only parsing) : prog_scope.
Notation "' x ← y ; z" := (bind y (λ x : _, z))
  (at level 20, x pattern, y at level 100, z at level 200, only parsing) : prog_scope.
Notation "x ;; z" := (bind x (λ _, z))
  (at level 100, z at level 200, only parsing, right associativity) : prog_scope.
Local Open Scope prog_scope.

Definition call {X : Type} (c : iptc_helper X) : prog X := Call c Ret.

(** [for x in l: body] *)
Fixpoint for_each {A : Type} (l : list A) (body : A → prog unit) : prog unit :=
  match l with
  | [] => Ret tt
  | x :: l' => body x ;; for_each l' body
  end.

(** a loop that updates local variables [acc] *)
Fixpoint for_fold {A B : Type} (l : list A) (acc : B) (body : B → A → prog B) : prog B :=
  match l with
  | [] => Ret acc
  | x :: l' => acc' ← body acc x; for_fold l' acc' body
  end.

(** [[f(x) for x in l]] where [f] may raise *)
Fixpoint for_list {A B : Type} (l : list A) (f : A → prog B) : prog (list B) :=
  match l with
  | [] => Ret []
  | x :: l' => y ← f x; ys ← for_list l' f; Ret (y :: ys)
  end.

(** ** Running a program against a backend *)

Inductive result (A : Type) :=
| Ok (a : A)
| Raise (e : exn).
Arguments Ok {A} a.
Arguments Raise {A} e.

(** A backend answers a call in its state [S], or raises [IPTCError msg]
    ([inl msg]). *)
Definition backend (S : Type) : Type :=
  ∀ X, iptc_helper X → S → (string + X) * S.

(** The state of the packet filter and the records logged so far. *)
Record world (S : Type) := World {
  filter_state : S;
  logged : list (level * string)
}.
Arguments World {S} _ _.
Arguments filter_state {S} _.
Arguments logged {S} _.

Fixpoint run {S A : Type} (h : backend S) (p : prog A) (w : world S) : result A * world S :=
  match p with
  | Ret a => (Ok a, w)
  | Call c k =>
      match h _ c (filter_state w) with
      | (inr x, s) => run h (k x) (World s (logged w))
      | (inl msg, s) => (Raise (IPTCError msg), World s (logged w))
      end
  | Log lvl msg k => run h k (World (filter_state w) (logged w ++ [(lvl, msg)]))
  | Throw e => (Raise e, w)
  | Try body except_iptc k =>
      match run h body w with
      | (Ok _, w') => run h k w'
      | (Raise (IPTCError msg), w') =>
          match run h (except_iptc msg) w' with
          | (Ok _, w'') => run h k w''
          | (Raise e, w'') => (Raise e, w'')
          end
      | (Raise e, w') => (Raise e, w')
      end
  end.

(** ** The standard [logging] module, as far as the agent uses it *)

Definition logger_error (msg : string) : prog unit := Log ERROR msg (Ret tt).

(** [logger.debug(exc_info=True)]: [Logger.debug(self, msg, *args, **kwargs)]
    has a required positional parameter [msg], so binding the arguments of
    this call raises [TypeError] before anything is logged. *)
Definition logger_debug_exc_info : prog unit :=
  Throw (TypeError "debug() missing 1 required positional argument: 'msg'").

(** [needle in hay] on Python strings *)
Fixpoint str_in (needle hay : string) : bool :=
  String.prefix needle hay ||
  match hay with
  | EmptyString => false
  | String _ hay' => str_in needle hay'
  end.

(** ** [iptables_helper.py] *)

Module iptables_helper.

(** *** [dump] *)

(** The value of one chain in the export: the dict
    [{'rules': [...], 'policy': ...}]. *)
Inductive chain_field :=
| Rules (l : list rule)
| Policy (p : string).

(** truth value of [get_policy]'s answer in [if policy:] *)
Definition truthy (policy : option string) : bool :=
  match policy with
  | Some p => negb (bool_decide (p = ""))
  | None => false
  end.

(** the body of the loop over the chains of a table; [chains] is the dict
    built so far *)
Definition dump_chain (table_name : string) (ipv6 : bool)
    (chains : gmap string (gmap string chain_field))
    (item : string * list rule) : prog (gmap string (gmap string chain_field)) :=
  let '(chain_name, chain) := item in
  policy ← call (get_policy table_name chain_name ipv6);
  let rules : gmap string chain_field :=
    {[ "rules" := Rules (filter (λ _, chain_name ≠ OUTPUT_CHAIN) chain) ]} in
  let rules :=
    match policy with
    | Some p => if truthy policy then <["policy" := Policy p]> rules else rules
    | None => rules
    end in
  Ret (<[chain_name := rules]> chains).

Definition family_key (ipv6 : bool) : string := if ipv6 then "v6" else "v4".

Abbreviation dump_tables :=
  (gmap string (gmap string (gmap string (gmap string chain_field)))).

(** the body of the loop over [product(('filter', 'nat', 'mangle'),
    (False, True))]; [tables] is the dict built so far *)
Definition dump_table_family (tables : dump_tables) (it : string * bool) :
    prog dump_tables :=
  let '(table_name, ipv6) := it in
  table ← call (dump_table table_name ipv6);
  chains ← for_fold (map_to_list table) ∅ (dump_chain table_name ipv6);
  (* tables[key][table_name] = chains; both keys are in [tables] from the start *)
  Ret (alter (insert table_name chains) (family_key ipv6) tables).

Definition dump : prog dump_tables :=
  for_fold (list_prod ["filter"; "nat"; "mangle"] [false; true])
    {[ "v6" := ∅; "v4" := ∅ ]} dump_table_family.

(** *** [prepare] *)

Definition LOG_RULE : rule :=
  {[ "target" :=
       VDict2 {[ "LOG" := {[ "log-prefix" := "DROP: "; "log-level" := "3" ]} ]} ]}.
Definition DROP_RULE : rule := {[ "target" := VStr "DROP" ]}.

Definition jump_to (target_chain : string) : rule :=
  {[ "target" := VStr target_chain ]}.

(** the body of the loop over [(target_chain, chain)] *)
Definition prepare_jump (ipv6 : bool) (tc : string * string) : prog unit :=
  let '(target_chain, chain) := tc in
  let jump_to_target := jump_to target_chain in
  first_rule ← call (get_rule TABLE chain 1 ipv6);
  if bool_decide (Some jump_to_target ≠ first_rule) then
    call (delete_rule TABLE chain jump_to_target ipv6 false);;
    call (add_rule TABLE chain jump_to_target 1 ipv6)
  else Ret tt.

(** the body of the loop over [ipv6] *)
Definition prepare_family (ipv6 : bool) : prog unit :=
  has_drop ← call (has_chain TABLE DROP_CHAIN ipv6);
  (if negb has_drop then
     call (add_chain TABLE DROP_CHAIN ipv6);;
     call (batch_add_rules TABLE (RuleList [LOG_RULE; DROP_RULE])
             (Some DROP_CHAIN) ipv6)
   else Ret tt);;
  has_input ← call (has_chain TABLE INPUT_CHAIN ipv6);
  (if negb has_input then call (add_chain TABLE INPUT_CHAIN ipv6)
   else call (flush_chain TABLE INPUT_CHAIN ipv6));;
  has_output ← call (has_chain TABLE OUTPUT_CHAIN ipv6);
  (if negb has_output then call (add_chain TABLE OUTPUT_CHAIN ipv6)
   else call (flush_chain TABLE OUTPUT_CHAIN ipv6));;
  for_each [(INPUT_CHAIN, "INPUT"); (OUTPUT_CHAIN, "OUTPUT")] (prepare_jump ipv6).

Definition prepare : prog unit := for_each [false; true] prepare_family.

(** *** [add_block_rules] *)

Definition LO_ACCEPT : rule :=
  {[ "in-interface" := VStr "lo"; "target" := VStr "ACCEPT" ]}.
Definition CONNTRACK_ACCEPT : rule :=
  {[ "conntrack" := VDict {[ "ctstate" := "RELATED,ESTABLISHED" ]};
     "target" := VStr "ACCEPT" ]}.

Definition add_block_rules : prog unit :=
  for_each [false; true] (λ ipv6,
    call (batch_add_rules TABLE
            (TripleList [(INPUT_CHAIN, LO_ACCEPT, 1);
                         (INPUT_CHAIN, CONNTRACK_ACCEPT, 2);
                         (INPUT_CHAIN, DROP_RULE, 0)])
            None ipv6)).

(** *** [add_rules] *)

Definition add_rules (table chain : string) (rules : list (rule * bool)) : prog unit :=
  for_each [false; true] (λ ipv6,
    let rules_ipv :=
      map fst (filter (λ ri : rule * bool, ipv6 = ri.2) rules) in
    call (batch_add_rules table (RuleList rules_ipv) (Some chain) ipv6)).

(** *** [block_ports] *)

(** [r['dst']] raises [KeyError] on a dict without that key *)
Definition remove_unspecified (r : rule) : prog rule :=
  match r !! "dst" with
  | Some dst =>
      if bool_decide (dst ∈ [VStr "0.0.0.0"; VStr "::"])
      then Ret (delete "dst" r) else Ret r
  | None => Throw (KeyError "dst")
  end.

(** The dict display of [block_ports]: the items are stored left to right,
    so a later item with an equal key replaces an earlier one. *)
Definition port_dict (allow : bool) (host proto : string) (port : Z) : rule :=
  <["target" := VStr (if allow then DROP_CHAIN else "ACCEPT")]>
    (<["dst" := VStr host]>
       (<[proto := VDict {[ "dport" := pretty port ]}]>
          (<["protocol" := VStr proto]> ∅))).

Definition port_entry : Type := string * string * Z * bool.

Definition block_ports (allow : bool) (ports_data : list port_entry) : prog unit :=
  rules ← for_list ports_data (λ '(host, proto, port, ipv6),
             r ← remove_unspecified (port_dict allow host proto port);
             Ret (r, ipv6));
  add_rules TABLE INPUT_CHAIN rules.

(** *** [block_networks] *)

Definition network_dict (n : string) : rule :=
  {[ "dst" := VStr n; "target" := VStr DROP_CHAIN ]}.

Definition block_networks (network_list : list (string * bool)) : prog unit :=
  let rules := map (λ '(n, ipv6), (network_dict n, ipv6)) network_list in
  add_rules TABLE OUTPUT_CHAIN rules.

(** *** [block] *)

(** The policy document: a dict whose keys may be missing. *)
Record blocklist := Blocklist {
  bl_policy : option string;
  bl_block_networks : option (list (string * bool));
  bl_block_ports : option (list port_entry);
  bl_allow_ports : option (list port_entry)
}.

(** ['Error: unknown policy "{}"'.format(policy)] *)
Definition unknown_policy_msg (policy : string) : string :=
  "Error: unknown policy " +:+ String "034"%char (policy +:+ String "034"%char EmptyString).

(** the [except iptc.IPTCError as e] clause; [e] stands for [str(e)] *)
Definition block_except (e : string) : prog unit :=
  logger_error ("Error while updating iptables: " +:+ e);;
  logger_debug_exc_info;;
  if str_in "insmod" e
  then logger_error "Error: failed to update iptables, try rebooting"
  else Ret tt.

(** the suite of the [try] statement *)
Definition block_try (blocklist : blocklist) (policy : string) : prog unit :=
  prepare;;
  block_networks (default [] (bl_block_networks blocklist));;
  if bool_decide (policy = "allow") then
    block_ports true (default [] (bl_block_ports blocklist))
  else if bool_decide (policy = "block") then
    block_ports false (default [] (bl_allow_ports blocklist));;
    add_block_rules
  else
    logger_error (unknown_policy_msg policy).

Definition block (blocklist : blocklist) : prog unit :=
  let policy := default "allow" (bl_policy blocklist) in
  Try (block_try blocklist policy) block_except (Ret tt).

End iptables_helper.

(** ** The packet-filter backend [agent/iptc_helper.py] *)

Module iptc.

(** The module [agent/iptc_helper.py] is not among the sources; only its
    callers in [iptables_helper.py] are.  The definitions of this module
    follow the interface that the spec gives for it (sections 3, 4.3 and 6). *)

(** Modelled from the spec: the state of a chain of [iptc_helper], its ordered
    rule list and its optional default verdict ([get_policy]). *)
Record chain_state := Chain {
  chain_rules : list rule;
  chain_policy : option string
}.

(** the identity of a chain: (table name, chain name, IPv6?) *)
Abbreviation chain_id := (string * string * bool)%type.

Abbreviation state := (gmap chain_id chain_state).

Definition set_rules (id : chain_id) (rules : list rule) (pol : option string)
    (st : state) : state :=
  <[id := Chain rules pol]> st.

(** Modelled from the spec: insert-at-position of [iptc_helper.add_rule].
    Position 1 is the first rule; position 0 appends, as for the drop rule
    that [add_block_rules] passes with position 0 and the spec calls appended
    last.  The spec is silent on a position beyond the end; the model has no
    result there. *)
Definition insert_at (position : nat) (r : rule) (l : list rule) : option (list rule) :=
  match position with
  | 0 => Some (l ++ [r])
  | S n => if decide (n ≤ length l) then Some (take n l ++ r :: drop n l) else None
  end.

(** Modelled from the spec: what [iptc_helper.delete_rule] does to the rule
    list: the first rule equal to the given one (same match and target) is
    removed. *)
Fixpoint remove_first (r : rule) (l : list rule) : list rule :=
  match l with
  | [] => []
  | x :: l' => if decide (x = r) then l' else x :: remove_first r l'
  end.

(** Modelled from the spec: the answer of [iptc_helper.dump_table], the rule
    lists of the chains of one table and family by chain name. *)
Definition table_chains (table : string) (ipv6 : bool) (st : state) :
    gmap string (list rule) :=
  map_fold (λ (id : chain_id) ch acc,
              let '(t, c, f) := id in
              if decide (t = table ∧ f = ipv6) then <[c := chain_rules ch]> acc
              else acc)
    ∅ st.

(** Modelled from the spec: a call of [iptc_helper] on a chain.  The spec is
    silent on a chain that does not exist; the model raises [IPTCError]. *)
Definition on_chain {X : Type} (id : chain_id) (st : state)
    (f : chain_state → (string + X) * state) : (string + X) * state :=
  match st !! id with
  | Some ch => f ch
  | None => (inl "No chain/target/match by that name", st)
  end.

(** Modelled from the spec: [iptc_helper.add_rule] on the state. *)
Definition do_add_rule (id : chain_id) (r : rule) (position : nat) (st : state) :
    (string + unit) * state :=
  on_chain id st (λ ch,
    match insert_at position r (chain_rules ch) with
    | Some l => (inr tt, set_rules id l (chain_policy ch) st)
    | None => (inl "Index out of range", st)
    end).

(** Modelled from the spec: [iptc_helper.batch_add_rules] on
    (chain, rule, position) triples, which applies each insert in turn. *)
Fixpoint do_inserts (table : string) (ipv6 : bool)
    (triples : list (string * rule * nat)) (st : state) : (string + unit) * state :=
  match triples with
  | [] => (inr tt, st)
  | (chain, r, position) :: triples' =>
      match do_add_rule (table, chain, ipv6) r position st with
      | (inr _, st') => do_inserts table ipv6 triples' st'
      | (inl msg, st') => (inl msg, st')
      end
  end.

(** Modelled from the spec: the functions of [agent/iptc_helper.py], which is
    missing from the sources.  [has_chain] is the existence check;
    [add_chain] creates an empty chain; [flush_chain] removes all rules of a
    chain; [get_policy] returns the optional default verdict; [dump_table]
    returns the chains of a table; [get_rule] returns the rule at a position
    or none; [add_rule] inserts at a position; [delete_rule] removes a rule
    equal to the given one and raises on a missing rule only when asked to;
    [batch_add_rules] with a chain replaces the entire rule list of the chain
    by exactly the given list, and with triples applies each insert.  Where
    the spec is silent (creating a chain that exists, a batch that is neither
    of the two forms) the model raises [IPTCError]. *)
Definition handle : backend state := λ X c st,
  match c in iptc_helper X return (string + X) * state with
  | has_chain t ch f => (inr (bool_decide (is_Some (st !! (t, ch, f)))), st)
  | add_chain t ch f =>
      match st !! (t, ch, f) with
      | Some _ => (inl "Chain already exists", st)
      | None => (inr tt, set_rules (t, ch, f) [] None st)
      end
  | flush_chain t ch f =>
      on_chain (t, ch, f) st (λ c, (inr tt, set_rules (t, ch, f) [] (chain_policy c) st))
  | get_policy t ch f =>
      on_chain (t, ch, f) st (λ c, (inr (chain_policy c), st))
  | dump_table t f => (inr (table_chains t f st), st)
  | get_rule t ch position f =>
      on_chain (t, ch, f) st (λ c,
        (inr match position with
             | 0 => None
             | S n => chain_rules c !! n
             end, st))
  | add_rule t ch r position f => do_add_rule (t, ch, f) r position st
  | delete_rule t ch r f raise_exc =>
      on_chain (t, ch, f) st (λ c,
        if decide (r ∈ chain_rules c) then
          (inr tt, set_rules (t, ch, f) (remove_first r (chain_rules c))
                     (chain_policy c) st)
        else if raise_exc then (inl "Rule not found", st)
        else (inr tt, st))
  | batch_add_rules t (RuleList rules) (Some ch) f =>
      on_chain (t, ch, f) st (λ c,
        (inr tt, set_rules (t, ch, f) rules (chain_policy c) st))
  | batch_add_rules t (TripleList triples) None f => do_inserts t f triples st
  | batch_add_rules _ _ _ _ => (inl "Invalid batch", st)
  end.

(** The rules of a chain, when it exists. *)
Definition rules_of (st : state) (id : chain_id) : option (list rule) :=
  chain_rules <$> st !! id.

Definition has (st : state) (id : chain_id) : bool := bool_decide (is_Some (st !! id)).

(** The filter table of either family has its built-in chains. *)
Definition builtin_chains (st : state) : bool :=
  forallb (λ f, has st (TABLE, "INPUT", f) && has st (TABLE, "OUTPUT", f)) [false; true].

(** A chain of the filter table exists in both families. *)
Definition has_chains (st : state) (chain : string) : bool :=
  forallb (λ f, has st (TABLE, chain, f)) [false; true].

End iptc.


(** * Notions used to state the properties *)

Import iptables_helper iptc.

(** what follows a step that raised does not run *)
Definition and_then {S A B : Type} (r : result A * world S)
    (k : A → world S → result B * world S) : result B * world S :=
  match r with
  | (Ok a, w) => k a w
  | (Raise e, w) => (Raise e, w)
  end.

(** The items of one address family, in input order. *)
Fixpoint family_of {A : Type} (f : bool) (l : list (A * bool)) : list A :=
  match l with
  | [] => []
  | (x, g) :: l' => if decide (g = f) then x :: family_of f l' else family_of f l'
  end.

(** Two batch calls that hand a rule list per family to one chain, IPv4
    first: what [add_rules] amounts to. *)
Definition two_batches (table chain : string) (rules4 rules6 : list rule) : prog unit :=
  Call (batch_add_rules table (RuleList rules4) (Some chain) false) (λ _,
    Call (batch_add_rules table (RuleList rules6) (Some chain) true) (λ _, Ret tt)).

(** *** Port rules *)

(** the all-zeros addresses *)
Definition unspecified (host : string) : bool :=
  bool_decide (host = "0.0.0.0" ∨ host = "::").

(** The rule [block_ports] derives from one entry. *)
Definition port_rule (allow : bool) (e : string * string * Z) : rule :=
  let '(host, proto, port) := e in
  let r := port_dict allow host proto port in
  if unspecified host then delete "dst" r else r.

(** The keys every port rule is built with; a protocol of one of these names
    shares its key with another item of the dict display. *)
Definition fixed_keys : list string := ["protocol"; "dst"; "target"].

(** What the rule of an entry has to be: it matches the protocol and the
    destination port, matches the destination host unless that is an
    all-zeros address, has the target the mode asks for, and matches nothing
    else. *)
Definition port_rule_ok (allow : bool) (e : string * string * Z) (r : rule) : Prop :=
  let '(host, proto, port) := e in
  r !! "protocol" = Some (VStr proto) ∧
  r !! proto = Some (VDict {[ "dport" := pretty port ]}) ∧
  r !! "dst" = (if unspecified host then None else Some (VStr host)) ∧
  r !! "target" = Some (VStr (if allow then DROP_CHAIN else "ACCEPT")) ∧
  ∀ k, k ∉ ["protocol"; proto; "dst"; "target"] → r !! k = None.

(** The same, asked of the rule of an entry whose protocol is not named like
    a fixed key; it asks nothing of the rule of any other entry. *)
Definition port_rule_for (allow : bool) (e : string * string * Z) (r : rule) : Prop :=
  let '(_, proto, _) := e in
  proto ∉ fixed_keys → port_rule_ok allow e r.

(** The rule has a match on the destination port: one of its values is the
    dict [{'dport': str(port)}], under whatever key. *)
Definition port_match (port : Z) (r : rule) : Prop :=
  ∃ k, r !! k = Some (VDict {[ "dport" := pretty port ]}).

(** The least a rule for an entry has to have: it names the protocol, has a
    match on the destination port under some key, has a ['dst'] match
    exactly for a host that is not all-zeros, and has the target of the
    mode.  Every entry has such a rule, whatever its protocol is named. *)
Definition port_rule_matches (allow : bool) (e : string * string * Z) (r : rule) : Prop :=
  let '(host, proto, port) := e in
  r !! "protocol" = Some (VStr proto) ∧
  port_match port r ∧
  r !! "dst" = (if unspecified host then None else Some (VStr host)) ∧
  r !! "target" = Some (VStr (if allow then DROP_CHAIN else "ACCEPT")).

(** two TCP/UDP entries around an entry whose protocol is named ['dst'] *)
Definition mixed_ports : list port_entry :=
  [("0.0.0.0", "tcp", 22%Z, false); ("10.0.0.1", "dst", 80%Z, false);
   ("fe80::1", "udp", 53%Z, true)].

(** *** States of the backend *)

(** The chain's rules become [l]; its policy stays. *)
Definition with_rules (id : chain_id) (l : list rule) (st : state) : state :=
  match st !! id with
  | Some ch => set_rules id l (chain_policy ch) st
  | None => st
  end.

(** The rule list of both families of a chain replaced. *)
Definition replaced (chain : string) (rules4 rules6 : list rule) (st : state) : state :=
  with_rules (TABLE, chain, true) rules6 (with_rules (TABLE, chain, false) rules4 st).

(** [prepare]'s repair of a built-in chain, as a function on its rules *)
Definition heal (jump : rule) (l : list rule) : list rule :=
  if decide (head l = Some jump) then l else jump :: remove_first jump l.

Definition heal_state (target_chain : string) (ch : chain_state) : chain_state :=
  Chain (heal (jump_to target_chain) (chain_rules ch)) (chain_policy ch).

Definition static_drop_chain : chain_state := Chain [LOG_RULE; DROP_RULE] None.

(** the number of occurrences of a rule in a chain *)
Definition occurrences (r : rule) (l : list rule) : nat :=
  length (filter (λ x, x = r) l).

Definition ensure_drop (f : bool) (st : state) : state :=
  match st !! (TABLE, DROP_CHAIN, f) with
  | Some _ => st
  | None => set_rules (TABLE, DROP_CHAIN, f) [LOG_RULE; DROP_RULE] None st
  end.

Definition ensure_empty (f : bool) (chain : string) (st : state) : state :=
  set_rules (TABLE, chain, f) [] (st !! (TABLE, chain, f) ≫= chain_policy) st.

Definition heal_chain (f : bool) (target_chain chain : string) (st : state) : state :=
  match st !! (TABLE, chain, f) with
  | Some ch => set_rules (TABLE, chain, f) (heal (jump_to target_chain) (chain_rules ch))
                 (chain_policy ch) st
  | None => st
  end.

(** the state one round of [prepare]'s loop leaves *)
Definition prepared_family (f : bool) (st : state) : state :=
  heal_chain f OUTPUT_CHAIN "OUTPUT"
    (heal_chain f INPUT_CHAIN "INPUT"
       (ensure_empty f OUTPUT_CHAIN (ensure_empty f INPUT_CHAIN (ensure_drop f st)))).

Definition prepared (st : state) : state :=
  prepared_family true (prepared_family false st).

(** what [prepare] makes of the chain named [c] of the filter table *)
Definition prepared_chain (c : string) (o : option chain_state) : option chain_state :=
  if decide (c = "INPUT") then heal_state INPUT_CHAIN <$> o
  else if decide (c = "OUTPUT") then heal_state OUTPUT_CHAIN <$> o
  else if decide (c = INPUT_CHAIN ∨ c = OUTPUT_CHAIN) then
    Some (Chain [] (o ≫= chain_policy))
  else if decide (c = DROP_CHAIN) then Some (default static_drop_chain o)
  else o.

(** the policy chain that each built-in chain jumps to *)
Definition jump_pairs : list (string * string) :=
  [(INPUT_CHAIN, "INPUT"); (OUTPUT_CHAIN, "OUTPUT")].

(** the input-policy chain in restrictive mode, around the allowed ports *)
Definition default_deny (l : list rule) : list rule :=
  LO_ACCEPT :: CONNTRACK_ACCEPT :: l ++ [DROP_RULE].

(** [add_block_rules] on one family: the chain's rules wrapped *)
Definition deny_family (f : bool) (st : state) : state :=
  match st !! (TABLE, INPUT_CHAIN, f) with
  | Some ch => with_rules (TABLE, INPUT_CHAIN, f) (default_deny (chain_rules ch)) st
  | None => st
  end.

(** the rule list of the first call of a program, when that is a batch call
    with a rule list *)
Definition first_batch (p : prog unit) : option (list rule) :=
  match p with
  | Call c _ =>
      match c with
      | batch_add_rules _ (RuleList l) _ _ => Some l
      | _ => None
      end
  | _ => None
  end.

(** A step is additive on a chain when every rule the chain had is still
    there after the step. *)
Definition additive_on (p : prog unit) (st : state) (id : chain_id) : Prop :=
  ∀ l w', rules_of st id = Some l → run handle p (World st []) = (Ok tt, w') →
    ∃ l', rules_of (filter_state w') id = Some l' ∧ ∀ r, r ∈ l → r ∈ l'.

(** *** Backends for [dump] and for failures *)

(** A backend that answers the two read calls of [dump] from fixed tables. *)
Definition reader (tbl : string → bool → gmap string (list rule))
    (pol : string → string → bool → option string) : backend unit :=
  λ X c s,
    match c in iptc_helper X return (string + X) * unit with
    | dump_table t f => (inr (tbl t f), s)
    | get_policy t ch f => (inr (pol t ch f), s)
    | _ => (inl "read-only backend", s)
    end.

(** the entry [dump] makes for a chain *)
Definition dump_entry (chain_name : string) (chain : list rule)
    (policy : option string) : gmap string chain_field :=
  let rules : gmap string chain_field :=
    {[ "rules" := Rules (if decide (chain_name = OUTPUT_CHAIN) then [] else chain) ]} in
  match policy with
  | Some p => if truthy policy then <["policy" := Policy p]> rules else rules
  | None => rules
  end.

(** one round of [dump]'s inner loop *)
Definition chains_step (pol : string → string → bool → option string)
    (t : string) (f : bool)
    (acc : gmap string (gmap string chain_field)) (item : string * list rule) :
    gmap string (gmap string chain_field) :=
  <[item.1 := dump_entry item.1 item.2 (pol t item.1 f)]> acc.

(** the chains of a table in the export *)
Definition chains_of (tbl : string → bool → gmap string (list rule))
    (pol : string → string → bool → option string) (t : string) (f : bool) :
    gmap string (gmap string chain_field) :=
  foldl (chains_step pol t f) ∅ (map_to_list (tbl t f)).

(** the tables of a family in the export *)
Definition exported (tbl : string → bool → gmap string (list rule))
    (pol : string → string → bool → option string) (f : bool) :
    gmap string (gmap string (gmap string chain_field)) :=
  <["mangle" := chains_of tbl pol "mangle" f]>
    (<["nat" := chains_of tbl pol "nat" f]>
       (<["filter" := chains_of tbl pol "filter" f]> ∅)).

(** the entry of a chain in an export *)
Definition export_chain (tables : dump_tables) (family table chain : string) :
    option (gmap string chain_field) :=
  match tables !! family with
  | Some fam =>
      match fam !! table with
      | Some chains => chains !! chain
      | None => None
      end
  | None => None
  end.

(** a filter table with a rule in WOTT_OUTPUT, and no other table *)
Definition example_tables (t : string) (f : bool) : gmap string (list rule) :=
  if bool_decide (t = "filter")
  then {[ OUTPUT_CHAIN := [network_dict "10.0.0.0/8"];
          "INPUT" := [jump_to INPUT_CHAIN] ]}
  else ∅.

Definition example_policies (t c : string) (f : bool) : option string :=
  if bool_decide (c = "INPUT") then Some "ACCEPT" else None.

(** A backend in which every call raises [IPTCError msg]. *)
Definition failing (msg : string) : backend unit := λ X c s, (inl msg, s).

Definition no_table_msg : string :=
  "can't initialize iptables table `filter': Table does not exist (do you need to insmod?)".

(** *** Example states *)

(** a rule of another tool *)
Definition foreign_rule : rule :=
  {[ "protocol" := VStr "tcp"; "target" := VStr "ACCEPT" ]}.

(** built-in chains only, nothing installed yet *)
Definition fresh_filter : state :=
  list_to_map
    [ ((TABLE, "INPUT", false), Chain [] (Some "ACCEPT"));
      ((TABLE, "OUTPUT", false), Chain [] (Some "ACCEPT"));
      ((TABLE, "INPUT", true), Chain [] (Some "ACCEPT"));
      ((TABLE, "OUTPUT", true), Chain [] (Some "ACCEPT")) ].

(** another tool put a rule ahead of the INPUT jump of IPv4 *)
Definition tampered_filter : state :=
  list_to_map
    [ ((TABLE, "INPUT", false),
        Chain [foreign_rule; jump_to INPUT_CHAIN] (Some "ACCEPT"));
      ((TABLE, "OUTPUT", false), Chain [jump_to OUTPUT_CHAIN] (Some "ACCEPT"));
      ((TABLE, "INPUT", true), Chain [jump_to INPUT_CHAIN] (Some "ACCEPT"));
      ((TABLE, "OUTPUT", true), Chain [jump_to OUTPUT_CHAIN] (Some "ACCEPT"));
      ((TABLE, DROP_CHAIN, false), static_drop_chain);
      ((TABLE, INPUT_CHAIN, false), Chain [] None);
      ((TABLE, OUTPUT_CHAIN, false), Chain [] None) ].

(** the INPUT chain of IPv4 holds its jump rule twice, behind a rule of
    another tool *)
Definition twice_jumped_filter : state :=
  list_to_map
    [ ((TABLE, "INPUT", false),
        Chain [foreign_rule; jump_to INPUT_CHAIN; jump_to INPUT_CHAIN] (Some "ACCEPT"));
      ((TABLE, "OUTPUT", false), Chain [jump_to OUTPUT_CHAIN] (Some "ACCEPT"));
      ((TABLE, "INPUT", true), Chain [jump_to INPUT_CHAIN] (Some "ACCEPT"));
      ((TABLE, "OUTPUT", true), Chain [jump_to OUTPUT_CHAIN] (Some "ACCEPT")) ].

(** the input-policy chain of IPv4 already blocks port 22 *)
Definition ssh_blocked : state :=
  <[(TABLE, INPUT_CHAIN, false) :=
      Chain [port_rule true ("0.0.0.0", "tcp", 22%Z)] None]>
    (<[(TABLE, INPUT_CHAIN, true) := Chain [] None]> fresh_filter).

(** *** Example documents *)

Definition unknown_policy_doc : blocklist :=
  Blocklist (Some "frobnicate") (Some [("10.0.0.0/8", false)]) None None.

Definition allow_doc : blocklist :=
  Blocklist (Some "allow") None (Some [("0.0.0.0", "tcp", 23%Z, false)]) None.

Definition block_doc : blocklist :=
  Blocklist (Some "block") (Some [("10.0.0.0/8", false)]) None
    (Some [("0.0.0.0", "tcp", 22%Z, false); ("fe80::1", "udp", 53%Z, true)]).

(** * Further notions *)

(** ** The calls a program can make *)

(** Every call the program can make, whatever the backend answers, is one
    of [P]. *)
Inductive every_call (P : ∀ X : Type, iptc_helper X → Prop) :
    ∀ A : Type, prog A → Prop :=
| every_Ret (A : Type) (a : A) : every_call P A (Ret a)
| every_Call (A X : Type) (c : iptc_helper X) (k : X → prog A) :
    P X c → (∀ x, every_call P A (k x)) → every_call P A (Call c k)
| every_Log (A : Type) lvl msg (k : prog A) :
    every_call P A k → every_call P A (Log lvl msg k)
| every_Throw (A : Type) e : every_call P A (Throw e)
| every_Try (A : Type) body ex (k : prog A) :
    every_call P unit body → (∀ e, every_call P unit (ex e)) → every_call P A k →
    every_call P A (Try body ex k).
Arguments every_call P {A} p.

(** A program that only calls the helper: no [raise], no [try], no log
    record. *)
Inductive calls_only : ∀ A : Type, prog A → Prop :=
| calls_only_Ret (A : Type) (a : A) : calls_only A (Ret a)
| calls_only_Call (A X : Type) (c : iptc_helper X) (k : X → prog A) :
    (∀ x, calls_only A (k x)) → calls_only A (Call c k).
Arguments calls_only {A} p.

(** the two reads of [dump] *)
Definition read_call (X : Type) (c : iptc_helper X) : Prop :=
  match c with
  | dump_table _ _ | get_policy _ _ _ => True
  | _ => False
  end.

(** the chains of the filter table that the reconciler works on *)
Definition policy_chains : list string := [INPUT_CHAIN; OUTPUT_CHAIN].
Definition jump_rules : list (string * rule) :=
  [("INPUT", jump_to INPUT_CHAIN); ("OUTPUT", jump_to OUTPUT_CHAIN)].

(** The calls of the reconciler: all on the filter table; existence checks
    and creation for its three chains; flushes of the two policy chains
    only; of a built-in chain it reads rule 1, deletes its own jump rule
    without raising, and inserts it at position 1; rule lists go to the
    policy chains, the two static rules to the log-drop chain, and
    positioned inserts to the input-policy chain. *)
Definition reconciler_call (X : Type) (c : iptc_helper X) : Prop :=
  match c with
  | has_chain t ch _ | add_chain t ch _ =>
      t = TABLE ∧ ch ∈ DROP_CHAIN :: policy_chains
  | flush_chain t ch _ => t = TABLE ∧ ch ∈ policy_chains
  | get_rule t ch position _ => t = TABLE ∧ ch ∈ ["INPUT"; "OUTPUT"] ∧ position = 1
  | delete_rule t ch r _ raise_exc =>
      t = TABLE ∧ (ch, r) ∈ jump_rules ∧ raise_exc = false
  | add_rule t ch r position _ => t = TABLE ∧ (ch, r) ∈ jump_rules ∧ position = 1
  | batch_add_rules t (RuleList l) (Some ch) _ =>
      t = TABLE ∧ (ch ∈ policy_chains ∨ ch = DROP_CHAIN ∧ l = [LOG_RULE; DROP_RULE])
  | batch_add_rules t (TripleList ts) None _ =>
      t = TABLE ∧ Forall (λ tr, tr.1.1 = INPUT_CHAIN) ts
  | _ => False
  end.

(** the chains [block] works on *)
Definition reconciler_chains : list string :=
  ["INPUT"; "OUTPUT"; DROP_CHAIN; INPUT_CHAIN; OUTPUT_CHAIN].

(** the rules of a chain other than the jump to a policy chain *)
Definition foreign_rules (target_chain : string) (st : state) (id : chain_id) :
    option (list rule) :=
  filter (λ r, r ≠ jump_to target_chain) <$> rules_of st id.

(** ** The state [block] leads to *)

(** the rules [block] computes for the output-policy chain of a family *)
Definition output_rules (doc : blocklist) (f : bool) : list rule :=
  map network_dict (family_of f (default [] (bl_block_networks doc))).

(** the rules [block] leaves in the input-policy chain of a family *)
Definition input_rules (doc : blocklist) (f : bool) : list rule :=
  let policy := default "allow" (bl_policy doc) in
  if bool_decide (policy = "allow") then
    map (port_rule true) (family_of f (default [] (bl_block_ports doc)))
  else if bool_decide (policy = "block") then
    default_deny (map (port_rule false) (family_of f (default [] (bl_allow_ports doc))))
  else [].

(** what [block] logs when no call raises *)
Definition block_log (doc : blocklist) : list (level * string) :=
  let policy := default "allow" (bl_policy doc) in
  if bool_decide (policy = "allow") then []
  else if bool_decide (policy = "block") then []
  else [(ERROR, unknown_policy_msg policy)].

(** the state after the branch of [block] on the policy *)
Definition policy_step (doc : blocklist) (st : state) : state :=
  let policy := default "allow" (bl_policy doc) in
  if bool_decide (policy = "allow") then
    replaced INPUT_CHAIN
      (map (port_rule true) (family_of false (default [] (bl_block_ports doc))))
      (map (port_rule true) (family_of true (default [] (bl_block_ports doc)))) st
  else if bool_decide (policy = "block") then
    deny_family true (deny_family false
      (replaced INPUT_CHAIN
         (map (port_rule false) (family_of false (default [] (bl_allow_ports doc))))
         (map (port_rule false) (family_of true (default [] (bl_allow_ports doc)))) st))
  else st.

(** the state after the steps of [block], from a state with the built-in
    chains *)
Definition reconciled (doc : blocklist) (st : state) : state :=
  policy_step doc
    (replaced OUTPUT_CHAIN (output_rules doc false) (output_rules doc true)
       (prepared st)).

(** what [block] makes of the chain named [c] of the filter table *)
Definition reconciled_chain (doc : blocklist) (f : bool) (c : string)
    (o : option chain_state) : option chain_state :=
  if decide (c = INPUT_CHAIN) then Some (Chain (input_rules doc f) (o ≫= chain_policy))
  else if decide (c = OUTPUT_CHAIN) then
    Some (Chain (output_rules doc f) (o ≫= chain_policy))
  else prepared_chain c o.

(** ** Calls that raise an exception of another class *)

(** What a call of the helper may raise: [iptc.IPTCError], or an exception
    of another class, such as [ValueError] or [iptc.XTablesError], given by
    the name of its class and its message. *)
Inductive raised :=
| Iptc (msg : string)
| OtherClass (cls msg : string).

(** A backend whose calls answer or raise either of these. *)
Definition raising_backend (S : Type) : Type :=
  ∀ X, iptc_helper X → S → (raised + X) * S.

(** How a run against such a backend ends: the program returns, it raises
    one of its own exceptions or an [IPTCError], or the exception of another
    class that a call raised leaves it. *)
Inductive outcome (A : Type) :=
| Returns (a : A)
| Raises (e : exn)
| Escapes (cls msg : string).
Arguments Returns {A} a.
Arguments Raises {A} e.
Arguments Escapes {A} cls msg.

(** [run] for these backends.  The [except iptc.IPTCError] clause of a [try]
    statement catches an [IPTCError] and no exception of another class. *)
Fixpoint run_raising {S A : Type} (h : raising_backend S) (p : prog A) (w : world S) :
    outcome A * world S :=
  match p with
  | Ret a => (Returns a, w)
  | Call c k =>
      match h _ c (filter_state w) with
      | (inr x, s) => run_raising h (k x) (World s (logged w))
      | (inl (Iptc msg), s) => (Raises (IPTCError msg), World s (logged w))
      | (inl (OtherClass cls msg), s) => (Escapes cls msg, World s (logged w))
      end
  | Log lvl msg k => run_raising h k (World (filter_state w) (logged w ++ [(lvl, msg)]))
  | Throw e => (Raises e, w)
  | Try body except_iptc k =>
      match run_raising h body w with
      | (Returns _, w') => run_raising h k w'
      | (Raises (IPTCError msg), w') =>
          match run_raising h (except_iptc msg) w' with
          | (Returns _, w'') => run_raising h k w''
          | (Raises e, w'') => (Raises e, w'')
          | (Escapes cls m, w'') => (Escapes cls m, w'')
          end
      | (Raises e, w') => (Raises e, w')
      | (Escapes cls m, w') => (Escapes cls m, w')
      end
  end.

(** a backend that raises nothing but [IPTCError], as one of these *)
Definition iptc_only {S : Type} (h : backend S) : raising_backend S :=
  λ X c s,
    match h X c s with
    | (inl msg, s') => (inl (Iptc msg), s')
    | (inr x, s') => (inr x, s')
    end.

Definition outcome_of {A : Type} (r : result A) : outcome A :=
  match r with
  | Ok a => Returns a
  | Raise e => Raises e
  end.

(** what follows a step that did not return does not run *)
Definition and_then_raising {S A B : Type} (r : outcome A * world S)
    (k : A → world S → outcome B * world S) : outcome B * world S :=
  match r with
  | (Returns a, w) => k a w
  | (Raises e, w) => (Raises e, w)
  | (Escapes cls msg, w) => (Escapes cls msg, w)
  end.

(** How the suite of [block] may end, from a world [w]: it returns and has
    logged [lg], or a call raised and the log is as it was in [w]. *)
Definition suite_ends {S : Type} (w : world S) (lg : list (level * string))
    (r : outcome unit * world S) : Prop :=
  (∃ w', r = (Returns tt, w') ∧ logged w' = logged w ++ lg) ∨
  (∃ msg w', r = (Raises (IPTCError msg), w') ∧ logged w' = logged w) ∨
  (∃ cls msg w', r = (Escapes cls msg, w') ∧ logged w' = logged w).

(** a backend in which every call raises [ValueError] *)
Definition bad_value : raising_backend unit :=
  λ X c s, (inl (OtherClass "ValueError" "invalid rule"), s).

(** ** More on port rules *)

(** What the rule of an entry is whatever the protocol is named: the
    destination match is there unless the host is an all-zeros address, the
    target is the one the mode asks for, and there is no key besides
    ['protocol'], the protocol's name, ['dst'] and ['target']. *)
Definition port_rule_core (allow : bool) (e : string * string * Z) (r : rule) : Prop :=
  let '(host, proto, port) := e in
  r !! "dst" = (if unspecified host then None else Some (VStr host)) ∧
  r !! "target" = Some (VStr (if allow then DROP_CHAIN else "ACCEPT")) ∧
  ∀ k, k ∉ ["protocol"; proto; "dst"; "target"] → r !! k = None.

(** ** The timestamps of the locker test: [tests/test_agent.py] *)

Module test_agent.
Section find_parallel.

(** The timestamps are Python floats that are only compared; [le] is their
    [<=]. *)
Context {T : Type} (le : T → T → bool).

(** [begin2 <= t <= end2] *)
Definition within (t : T) (interval : T * T) : bool :=
  le interval.1 t && le t interval.2.

(** the inner loop of [find_parallel]: the value of [parallel] after it *)
Fixpoint find_in_second (begin1 end1 : T) (second_pairs : list (T * T)) : bool :=
  match second_pairs with
  | [] => false
  | (begin2, end2) :: rest =>
      if within begin1 (begin2, end2) || within end1 (begin2, end2) then true
      else find_in_second begin1 end1 rest
  end.

Fixpoint find_parallel (first_pairs second_pairs : list (T * T)) : bool :=
  match first_pairs with
  | [] => false
  | (begin1, end1) :: rest =>
      if find_in_second begin1 end1 second_pairs then true
      else find_parallel rest second_pairs
  end.

(** [is_parallel] once the two files are parsed: [file_time_pairs] is
    unpacked into exactly two lists ([None]: the [ValueError] of a failed
    unpacking). *)
Definition is_parallel (file_time_pairs : list (list (T * T))) : option bool :=
  match file_time_pairs with
  | [first_pairs; second_pairs] =>
      Some (find_parallel first_pairs second_pairs ||
            find_parallel second_pairs first_pairs)
  | _ => None
  end.

(** Two runs overlap when they share a point in time. *)
Definition overlap (i1 i2 : T * T) : Prop :=
  le i1.1 i2.2 = true ∧ le i2.1 i1.2 = true.

(** a run does not end before it begins *)
Definition well_formed (pairs : list (T * T)) : Prop :=
  Forall (λ i, le i.1 i.2 = true) pairs.

End find_parallel.
End test_agent.

Import test_agent.

(** * Properties *)

Local Open Scope prog_scope.

Ltac next := unfold and_then; cbv beta iota.

(** ** Running programs *)

Section run_facts.
Context {S : Type} (h : backend S).

Lemma run_bind {A B : Type} (m : prog A) (f : A → prog B) (w : world S) :
  run h (bind m f) w = and_then (run h m w) (λ a, run h (f a)).
Proof.
  revert B f w. induction m as [A a|A X c k IH|A lvl msg k IH|A e|A body _ ex _ k IH]
    using prog_ind; intros B f w; simpl.
  - done.
  - destruct (h X c (filter_state w)) as [[msg|x] s]; [done|apply IH].
  - apply IH.
  - done.
  - destruct (run h body w) as [[[]|[msg| |]] w']; simpl; try done.
    destruct (run h (ex msg) w') as [[[]|e] w'']; simpl; done.
Qed.

Lemma run_bind_assoc {A B C : Type} (m : prog A) (g : A → prog B)
    (k : B → prog C) (w : world S) :
  run h (bind m (λ x, bind (g x) k)) w =
    and_then (run h (bind m g) w) (λ y, run h (k y)).
Proof.
  rewrite !run_bind. destruct (run h m w) as [[a|e] w']; simpl; [|done].
  apply run_bind.
Qed.

Lemma run_seq_ok {A B : Type} (m : prog A) (k : prog B) (w w' : world S) a :
  run h m w = (Ok a, w') → run h (m ;; k) w = run h k w'.
Proof. intros Hm. by rewrite run_bind, Hm. Qed.

Lemma run_seq_raise {A B : Type} (m : prog A) (f : A → prog B) (w w' : world S) e :
  run h m w = (Raise e, w') → run h (bind m f) w = (Raise e, w').
Proof. intros Hm. by rewrite run_bind, Hm. Qed.

Lemma run_call {X : Type} (c : iptc_helper X) (w : world S) :
  run h (call c) w =
    match h X c (filter_state w) with
    | (inr x, s) => (Ok x, World s (logged w))
    | (inl msg, s) => (Raise (IPTCError msg), World s (logged w))
    end.
Proof. unfold call; simpl. by destruct (h X c (filter_state w)) as [[?|?] ?]. Qed.

Lemma run_Call_ok {A X : Type} (c : iptc_helper X) (k : X → prog A) (w : world S) x s :
  h X c (filter_state w) = (inr x, s) →
  run h (Call c k) w = run h (k x) (World s (logged w)).
Proof. intros Hc; simpl. by rewrite Hc. Qed.

Lemma run_Try {A : Type} (body : prog unit) (ex : string → prog unit) (k : prog A) w :
  run h (Try body ex k) w =
    match run h body w with
    | (Ok _, w') => run h k w'
    | (Raise (IPTCError msg), w') =>
        match run h (ex msg) w' with
        | (Ok _, w'') => run h k w''
        | (Raise e, w'') => (Raise e, w'')
        end
    | (Raise e, w') => (Raise e, w')
    end.
Proof. done. Qed.

Lemma run_logger_error msg w :
  run h (logger_error msg) w =
    (Ok tt, World (filter_state w) (logged w ++ [(ERROR, msg)])).
Proof. done. Qed.

Lemma run_for_each_nil {A : Type} (body : A → prog unit) w :
  run h (for_each [] body) w = (Ok tt, w).
Proof. done. Qed.

Lemma run_for_each_cons {A : Type} (x : A) (l : list A) (body : A → prog unit) w :
  run h (for_each (x :: l) body) w =
    and_then (run h (body x) w) (λ _, run h (for_each l body)).
Proof. simpl. apply run_bind. Qed.

End run_facts.

(** ** Lists of rules *)

Lemma head_heal (jump : rule) l : head (heal jump l) = Some jump.
Proof. unfold heal. by case_decide. Qed.

Lemma heal_heal (jump : rule) l : heal jump (heal jump l) = heal jump l.
Proof. unfold heal at 1. rewrite head_heal. by rewrite decide_True. Qed.

Lemma filter_remove_first (jump : rule) (l : list rule) :
  filter (λ r, r ≠ jump) (remove_first jump l) = filter (λ r, r ≠ jump) l.
Proof.
  induction l as [|x l IH]; simpl; [done|].
  case_decide as Hx.
  - subst x. by rewrite filter_cons_False by (intros ?; done).
  - by rewrite !filter_cons_True, IH by done.
Qed.

(** healing keeps every foreign rule, in order *)
Lemma filter_heal (jump : rule) (l : list rule) :
  filter (λ r, r ≠ jump) (heal jump l) = filter (λ r, r ≠ jump) l.
Proof.
  unfold heal. case_decide; [done|].
  rewrite filter_cons_False by (intros ?; done). apply filter_remove_first.
Qed.

Lemma remove_first_notin (r : rule) (l : list rule) :
  r ∉ l → remove_first r l = l.
Proof.
  induction l as [|x l IH]; simpl; [done|]. intros Hin.
  apply not_elem_of_cons in Hin as [Hne Hin].
  rewrite decide_False by done. by rewrite IH.
Qed.

Lemma remove_first_middle (r : rule) (l1 l2 : list rule) :
  r ∉ l1 → remove_first r (l1 ++ r :: l2) = l1 ++ l2.
Proof.
  induction l1 as [|x l1 IH]; simpl; intros Hin.
  - by rewrite decide_True.
  - apply not_elem_of_cons in Hin as [Hne Hin].
    rewrite decide_False by done. by rewrite IH.
Qed.

Lemma occurrences_cons (r x : rule) (l : list rule) :
  occurrences r (x :: l) = (if decide (x = r) then 1 else 0) + occurrences r l.
Proof.
  unfold occurrences. case_decide.
  - by rewrite filter_cons_True.
  - by rewrite filter_cons_False.
Qed.

Lemma occurrences_remove_first (r : rule) (l : list rule) :
  occurrences r (remove_first r l) = pred (occurrences r l).
Proof.
  induction l as [|x l IH]; [done|]. simpl remove_first. rewrite occurrences_cons.
  case_decide as Hx; [done|]. rewrite occurrences_cons, decide_False by done.
  by rewrite IH.
Qed.

(** a chain with at most one jump rule has exactly one after the repair *)
Lemma occurrences_heal (jump : rule) (l : list rule) :
  occurrences jump l ≤ 1 → occurrences jump (heal jump l) = 1.
Proof.
  unfold heal. case_decide as Hhd.
  - destruct l as [|x l]; [done|]. simpl in Hhd. injection Hhd as ->.
    rewrite occurrences_cons, decide_True by done. lia.
  - rewrite occurrences_cons, decide_True, occurrences_remove_first by done. lia.
Qed.

(** healing adds a jump rule only to a chain that has none *)
Lemma occurrences_heal_max (jump : rule) (l : list rule) :
  occurrences jump (heal jump l) = Nat.max 1 (occurrences jump l).
Proof.
  unfold heal. case_decide as Hhd.
  - destruct l as [|x l]; [done|]. simpl in Hhd. injection Hhd as ->.
    rewrite occurrences_cons, decide_True by done. lia.
  - rewrite occurrences_cons, decide_True, occurrences_remove_first by done. lia.
Qed.

(** ** The backend's answers on chains that exist *)

Section backend_facts.
Implicit Types (st : state) (id : chain_id) (ch : chain_state) (r : rule).

Lemma has_is_Some st id : has st id = true ↔ is_Some (st !! id).
Proof. unfold has. by rewrite bool_decide_eq_true. Qed.

Lemma builtin_chains_spec st :
  builtin_chains st = true ↔
    ∀ f : bool, is_Some (st !! (TABLE, "INPUT", f)) ∧ is_Some (st !! (TABLE, "OUTPUT", f)).
Proof.
  unfold builtin_chains. simpl. rewrite !andb_true_iff, !has_is_Some. split.
  - intros ([??] & [??] & _) []; done.
  - intros Hb. destruct (Hb false), (Hb true). done.
Qed.

Lemma has_chains_spec st chain :
  has_chains st chain = true ↔ ∀ f : bool, is_Some (st !! (TABLE, chain, f)).
Proof.
  unfold has_chains. simpl. rewrite !andb_true_iff, !has_is_Some. split.
  - intros (? & ? & _) []; done.
  - intros Hb. by split_and!.
Qed.

Lemma set_rules_id id ch st :
  st !! id = Some ch → set_rules id (chain_rules ch) (chain_policy ch) st = st.
Proof. intros Hid. unfold set_rules. destruct ch. by apply insert_id. Qed.

Lemma set_rules_twice id l l' p p' st :
  set_rules id l p (set_rules id l' p' st) = set_rules id l p st.
Proof. apply insert_insert_eq. Qed.

Lemma lookup_set_rules id id' l p st :
  set_rules id l p st !! id' =
    if decide (id = id') then Some (Chain l p) else st !! id'.
Proof. apply lookup_insert. Qed.

Lemma lookup_with_rules id id' l st :
  with_rules id l st !! id' =
    if decide (id = id') then (λ ch, Chain l (chain_policy ch)) <$> st !! id'
    else st !! id'.
Proof.
  unfold with_rules. destruct (st !! id) eqn:Hd.
  - rewrite lookup_set_rules. case_decide; simplify_eq; [|done]. by rewrite Hd.
  - case_decide; simplify_eq; [|done]. by rewrite Hd.
Qed.

Lemma handle_flush_chain t c f st ch :
  st !! (t, c, f) = Some ch →
  handle _ (flush_chain t c f) st = (inr tt, set_rules (t, c, f) [] (chain_policy ch) st).
Proof. intros Hch; simpl; unfold on_chain. by rewrite Hch. Qed.

Lemma handle_add_chain t c f st :
  st !! (t, c, f) = None →
  handle _ (add_chain t c f) st = (inr tt, set_rules (t, c, f) [] None st).
Proof. intros Hch; simpl. by rewrite Hch. Qed.

Lemma handle_get_rule t c f n st ch :
  st !! (t, c, f) = Some ch →
  handle _ (get_rule t c (S n) f) st = (inr (chain_rules ch !! n), st).
Proof. intros Hch; simpl; unfold on_chain. by rewrite Hch. Qed.

(** deleting with [raise_exc=False] never raises on an existing chain *)
Lemma handle_delete_rule_quiet t c f r st ch :
  st !! (t, c, f) = Some ch →
  handle _ (delete_rule t c r f false) st =
    (inr tt, set_rules (t, c, f) (remove_first r (chain_rules ch)) (chain_policy ch) st).
Proof.
  intros Hch; simpl; unfold on_chain. rewrite Hch. case_decide as Hin; [done|].
  by rewrite (remove_first_notin _ _ Hin), set_rules_id.
Qed.

Lemma handle_add_rule_first t c f r st ch :
  st !! (t, c, f) = Some ch →
  handle _ (add_rule t c r 1 f) st =
    (inr tt, set_rules (t, c, f) (r :: chain_rules ch) (chain_policy ch) st).
Proof. intros Hch; simpl; unfold do_add_rule, on_chain. by rewrite Hch. Qed.

(** with [chain=...] the given list becomes the chain's rule list *)
Lemma handle_batch_replace t c f rules st :
  is_Some (st !! (t, c, f)) →
  handle _ (batch_add_rules t (RuleList rules) (Some c) f) st =
    (inr tt, with_rules (t, c, f) rules st).
Proof. intros [ch Hch]; simpl; unfold on_chain, with_rules. by rewrite Hch. Qed.

(** the three inserts of [add_block_rules] around the rules of the chain *)
Lemma handle_batch_default_deny f st ch :
  st !! (TABLE, INPUT_CHAIN, f) = Some ch →
  handle _ (batch_add_rules TABLE
              (TripleList [(INPUT_CHAIN, LO_ACCEPT, 1);
                           (INPUT_CHAIN, CONNTRACK_ACCEPT, 2);
                           (INPUT_CHAIN, DROP_RULE, 0)]) None f) st =
    (inr tt, with_rules (TABLE, INPUT_CHAIN, f) (default_deny (chain_rules ch)) st).
Proof.
  intros Hch. simpl. unfold do_add_rule at 1, on_chain. rewrite Hch. simpl.
  unfold do_add_rule at 1, on_chain. rewrite lookup_set_rules, decide_True by done.
  simpl. rewrite set_rules_twice.
  unfold do_add_rule at 1, on_chain. rewrite lookup_set_rules, decide_True by done.
  simpl. rewrite set_rules_twice. unfold with_rules. by rewrite Hch.
Qed.

End backend_facts.

(** ** [prepare] on the backend *)

Section prepare_on_backend.
Implicit Types (st : state) (f : bool).

Lemma lookup_ensure_drop f st id :
  ensure_drop f st !! id =
    if decide (id = (TABLE, DROP_CHAIN, f))
    then Some (default static_drop_chain (st !! id))
    else st !! id.
Proof.
  unfold ensure_drop. destruct (st !! (TABLE, DROP_CHAIN, f)) eqn:Hd.
  - case_decide; simplify_eq; [|done]. by rewrite Hd.
  - rewrite lookup_set_rules. repeat case_decide; simplify_eq; try done.
    by rewrite Hd.
Qed.

Lemma lookup_ensure_empty f chain st id :
  ensure_empty f chain st !! id =
    if decide (id = (TABLE, chain, f))
    then Some (Chain [] (st !! id ≫= chain_policy))
    else st !! id.
Proof.
  unfold ensure_empty. rewrite lookup_set_rules.
  repeat case_decide; by simplify_eq.
Qed.

Lemma lookup_heal_chain f tc chain st id :
  heal_chain f tc chain st !! id =
    if decide (id = (TABLE, chain, f)) then heal_state tc <$> st !! id
    else st !! id.
Proof.
  unfold heal_chain. destruct (st !! (TABLE, chain, f)) eqn:Hd.
  - rewrite lookup_set_rules. repeat case_decide; simplify_eq; try done.
    by rewrite Hd.
  - case_decide; simplify_eq; [|done]. by rewrite Hd.
Qed.

Lemma run_prepare_jump f tc chain st lg :
  is_Some (st !! (TABLE, chain, f)) →
  run handle (prepare_jump f (tc, chain)) (World st lg) =
    (Ok tt, World (heal_chain f tc chain st) lg).
Proof.
  intros [ch Hch]. unfold prepare_jump, heal_chain. rewrite Hch.
  rewrite run_bind, run_call. simpl filter_state.
  rewrite (handle_get_rule _ _ _ _ _ _ Hch). simpl.
  unfold heal. rewrite <-head_lookup.
  destruct (decide (head (chain_rules ch) = Some (jump_to tc))) as [Hhd|Hhd].
  - rewrite bool_decide_false by (intros Hne; by apply Hne). simpl.
    by rewrite (set_rules_id _ _ _ Hch).
  - rewrite bool_decide_true by (intros Heq; by apply Hhd).
    erewrite run_Call_ok by (by apply handle_delete_rule_quiet).
    rewrite run_call; simpl filter_state.
    erewrite handle_add_rule_first by (rewrite lookup_set_rules, decide_True; done).
    simpl. by rewrite set_rules_twice.
Qed.

Lemma run_ensure_empty f chain st lg :
  run handle
    (has ← call (has_chain TABLE chain f);
     if negb has then call (add_chain TABLE chain f)
     else call (flush_chain TABLE chain f)) (World st lg) =
    (Ok tt, World (ensure_empty f chain st) lg).
Proof.
  rewrite run_bind, run_call; simpl. unfold ensure_empty.
  destruct (st !! (TABLE, chain, f)) as [ch|] eqn:Hch.
  - rewrite bool_decide_true by done. simpl negb. cbv iota.
    rewrite run_call. simpl filter_state.
    by rewrite (handle_flush_chain _ _ _ _ _ Hch).
  - rewrite bool_decide_false by (by intros [??]). simpl negb. cbv iota.
    rewrite run_call. simpl filter_state.
    by rewrite (handle_add_chain _ _ _ _ Hch).
Qed.

Lemma run_ensure_drop f st lg :
  run handle
    (has_drop ← call (has_chain TABLE DROP_CHAIN f);
     if negb has_drop then
       call (add_chain TABLE DROP_CHAIN f);;
       call (batch_add_rules TABLE (RuleList [LOG_RULE; DROP_RULE])
               (Some DROP_CHAIN) f)
     else Ret tt) (World st lg) =
    (Ok tt, World (ensure_drop f st) lg).
Proof.
  rewrite run_bind, run_call; simpl. unfold ensure_drop.
  destruct (st !! (TABLE, DROP_CHAIN, f)) as [ch|] eqn:Hch.
  - by rewrite bool_decide_true by done.
  - rewrite bool_decide_false by (by intros [??]). simpl negb. cbv iota.
    erewrite run_Call_ok by (by apply handle_add_chain).
    rewrite run_call. simpl filter_state.
    rewrite handle_batch_replace by (rewrite lookup_set_rules, decide_True; done).
    simpl. unfold with_rules. rewrite lookup_set_rules, decide_True by done.
    by rewrite set_rules_twice.
Qed.

Lemma run_prepare_family f st lg :
  is_Some (st !! (TABLE, "INPUT", f)) → is_Some (st !! (TABLE, "OUTPUT", f)) →
  run handle (prepare_family f) (World st lg) =
    (Ok tt, World (prepared_family f st) lg).
Proof.
  intros Hin Hout. unfold prepare_family, prepared_family.
  rewrite run_bind_assoc, run_ensure_drop. next.
  rewrite run_bind_assoc, run_ensure_empty. next.
  rewrite run_bind_assoc, run_ensure_empty. next.
  rewrite run_for_each_cons, run_prepare_jump. next.
  rewrite run_for_each_cons, run_prepare_jump. next.
  done.
  - rewrite lookup_heal_chain, decide_False by done.
    by rewrite !lookup_ensure_empty, lookup_ensure_drop, !decide_False by done.
  - by rewrite !lookup_ensure_empty, lookup_ensure_drop, !decide_False by done.
Qed.

Lemma lookup_prepared_family f st t c f' :
  prepared_family f st !! (t, c, f') =
    if decide (t = TABLE ∧ f' = f) then prepared_chain c (st !! (t, c, f'))
    else st !! (t, c, f').
Proof.
  unfold prepared_family, prepared_chain.
  rewrite !lookup_heal_chain, !lookup_ensure_empty, lookup_ensure_drop.
  unfold TABLE, INPUT_CHAIN, OUTPUT_CHAIN, DROP_CHAIN.
  repeat case_decide; simplify_eq; try done; try (exfalso; naive_solver).
Qed.

Lemma lookup_prepared st t c f :
  prepared st !! (t, c, f) =
    if decide (t = TABLE) then prepared_chain c (st !! (t, c, f)) else st !! (t, c, f).
Proof.
  unfold prepared. rewrite !lookup_prepared_family.
  destruct f; repeat case_decide; try done; naive_solver.
Qed.

Lemma prepared_chain_idem c o :
  prepared_chain c (prepared_chain c o) = prepared_chain c o.
Proof.
  unfold prepared_chain, heal_state. repeat case_decide; try done.
  - destruct o as [[l p]|]; simpl; [|done]. by rewrite heal_heal.
  - destruct o as [[l p]|]; simpl; [|done]. by rewrite heal_heal.
Qed.

Lemma prepared_idem st : prepared (prepared st) = prepared st.
Proof.
  apply map_eq. intros [[t c] f]. rewrite !lookup_prepared.
  case_decide; [apply prepared_chain_idem|done].
Qed.

Lemma builtin_chains_prepared_family f st :
  builtin_chains st = true → builtin_chains (prepared_family f st) = true.
Proof.
  rewrite !builtin_chains_spec.
  intros Hb f'. rewrite !lookup_prepared_family. destruct (Hb f') as [[ci Hi] [co Ho]].
  rewrite Hi, Ho. unfold prepared_chain; simpl. split; case_decide; done.
Qed.

Lemma builtin_chains_prepared st :
  builtin_chains st = true → builtin_chains (prepared st) = true.
Proof. intros Hb. by do 2 apply builtin_chains_prepared_family. Qed.

(** [prepare] returns on every state that has the built-in chains *)
Lemma run_prepare st lg :
  builtin_chains st = true →
  run handle prepare (World st lg) = (Ok tt, World (prepared st) lg).
Proof.
  intros Hb. unfold prepare, prepared.
  pose proof (builtin_chains_prepared_family false _ Hb) as Hb'.
  rewrite builtin_chains_spec in Hb, Hb'.
  rewrite run_for_each_cons, run_prepare_family by apply Hb. next.
  rewrite run_for_each_cons, run_prepare_family by apply Hb'.
  done.
Qed.

(** after [prepare] both policy chains exist and are empty *)
Lemma lookup_prepared_policy_chain st chain f :
  chain = INPUT_CHAIN ∨ chain = OUTPUT_CHAIN →
  ∃ p, prepared st !! (TABLE, chain, f) = Some (Chain [] p).
Proof.
  intros Hc. rewrite lookup_prepared, decide_True by done. unfold prepared_chain.
  rewrite decide_False by (by destruct Hc as [-> | ->]).
  rewrite decide_False by (by destruct Hc as [-> | ->]).
  rewrite decide_True by done. eauto.
Qed.

End prepare_on_backend.

(** ** The claims about [prepare] *)

Lemma lookup_prepared_builtin st f tc chain :
  builtin_chains st = true → (tc, chain) ∈ jump_pairs →
  ∃ ch, st !! (TABLE, chain, f) = Some ch ∧
        prepared st !! (TABLE, chain, f) = Some (heal_state tc ch).
Proof.
  rewrite builtin_chains_spec. intros Hb Hin.
  destruct (Hb f) as [[ci Hi] [co Ho]]. rewrite lookup_prepared, decide_True by done.
  unfold jump_pairs in Hin. apply elem_of_cons in Hin as [Heq|Hin].
  - simplify_eq. exists ci. by rewrite Hi.
  - apply list_elem_of_singleton in Hin. simplify_eq. exists co. by rewrite Ho.
Qed.

(** C5: on the backend modelled from the spec, [prepare] returns from every
    state that has the built-in chains, and afterwards, in each family, the
    first rule of INPUT and of OUTPUT is the jump to the policy chain.  A
    chain that began with the jump is unchanged.  Otherwise the first jump
    rule found in the chain is taken out (none being there is fine) and the
    jump is put in front.  In both cases the other rules stay, in order. *)
Theorem prepare_jump_first (st : state) (lg : list (level * string)) :
  builtin_chains st = true →
  ∃ st', run handle prepare (World st lg) = (Ok tt, World st' lg) ∧
    ∀ (f : bool) target_chain chain, (target_chain, chain) ∈ jump_pairs →
      ∃ l l', rules_of st (TABLE, chain, f) = Some l ∧
        rules_of st' (TABLE, chain, f) = Some l' ∧
        head l' = Some (jump_to target_chain) ∧
        (head l = Some (jump_to target_chain) → l' = l) ∧
        (head l ≠ Some (jump_to target_chain) →
           (jump_to target_chain ∉ l → l' = jump_to target_chain :: l) ∧
           (∀ l1 l2, l = l1 ++ jump_to target_chain :: l2 →
                     jump_to target_chain ∉ l1 →
                     l' = jump_to target_chain :: l1 ++ l2)) ∧
        filter (λ r, r ≠ jump_to target_chain) l' =
          filter (λ r, r ≠ jump_to target_chain) l.
Proof.
  intros Hb. exists (prepared st). split; [by apply run_prepare|].
  intros f tc chain Hin.
  destruct (lookup_prepared_builtin st f tc chain Hb Hin) as (ch & Hch & Hch').
  exists (chain_rules ch), (heal (jump_to tc) (chain_rules ch)).
  unfold rules_of. rewrite Hch, Hch'. simpl.
  split_and!; try done.
  - apply head_heal.
  - intros Hhd. unfold heal. by rewrite decide_True.
  - intros Hhd. unfold heal. rewrite decide_False by done. split.
    + intros Hnot. by rewrite remove_first_notin.
    + intros l1 l2 -> Hnot. by rewrite remove_first_middle.
  - apply filter_heal.
Qed.

Lemma prepare_jump_first_witness :
  builtin_chains tampered_filter = true ∧
  ∃ st', run handle prepare (World tampered_filter []) = (Ok tt, World st' []) ∧
    ∀ (f : bool) target_chain chain, (target_chain, chain) ∈ jump_pairs →
      ∃ l l', rules_of tampered_filter (TABLE, chain, f) = Some l ∧
        rules_of st' (TABLE, chain, f) = Some l' ∧
        head l' = Some (jump_to target_chain) ∧
        (head l = Some (jump_to target_chain) → l' = l) ∧
        (head l ≠ Some (jump_to target_chain) →
           (jump_to target_chain ∉ l → l' = jump_to target_chain :: l) ∧
           (∀ l1 l2, l = l1 ++ jump_to target_chain :: l2 →
                     jump_to target_chain ∉ l1 →
                     l' = jump_to target_chain :: l1 ++ l2)) ∧
        filter (λ r, r ≠ jump_to target_chain) l' =
          filter (λ r, r ≠ jump_to target_chain) l.
Proof.
  split; [vm_compute; reflexivity|].
  apply (prepare_jump_first tampered_filter []). vm_compute; reflexivity.
Defined.

(** The self-heal scenario of the spec: the jump comes back to the front and
    the foreign rule stays. *)
Example prepare_self_heal :
  rules_of (filter_state (run handle prepare (World tampered_filter [])).2)
    (TABLE, "INPUT", false) = Some [jump_to INPUT_CHAIN; foreign_rule].
Proof. vm_compute. reflexivity. Qed.

(** C6, amended: on the backend modelled from the spec, from every state
    that has the built-in chains, a second [prepare] right after the first
    leaves the state the first one produced.  The log-drop chain is the one
    found, or, when there was none, the new one with its two static rules.
    [prepare] adds no duplicate of a jump rule and removes no surplus one:
    a built-in chain with [n] copies of its jump rule has [max 1 n] copies
    afterwards, so exactly one when it had at most one. *)
Theorem prepare_twice (st : state) (lg : list (level * string)) :
  builtin_chains st = true →
  ∃ st1, run handle prepare (World st lg) = (Ok tt, World st1 lg) ∧
    run handle prepare (World st1 lg) = (Ok tt, World st1 lg) ∧
    run handle (prepare ;; prepare) (World st lg) = (Ok tt, World st1 lg) ∧
    (∀ f : bool, st1 !! (TABLE, DROP_CHAIN, f) =
                   Some (default (Chain [LOG_RULE; DROP_RULE] None)
                           (st !! (TABLE, DROP_CHAIN, f)))) ∧
    (∀ (f : bool) target_chain chain l,
       (target_chain, chain) ∈ jump_pairs →
       rules_of st (TABLE, chain, f) = Some l →
       ∃ l1, rules_of st1 (TABLE, chain, f) = Some l1 ∧
             occurrences (jump_to target_chain) l1 =
               Nat.max 1 (occurrences (jump_to target_chain) l) ∧
             (occurrences (jump_to target_chain) l ≤ 1 →
              occurrences (jump_to target_chain) l1 = 1)).
Proof.
  intros Hb. exists (prepared st).
  assert (run handle prepare (World (prepared st) lg) = (Ok tt, World (prepared st) lg))
    as Hsecond.
  { rewrite run_prepare by by apply builtin_chains_prepared. by rewrite prepared_idem. }
  split_and!.
  - by apply run_prepare.
  - done.
  - by rewrite (run_seq_ok _ _ _ _ _ _ (run_prepare st lg Hb)).
  - intros f. rewrite lookup_prepared, decide_True by done. done.
  - intros f tc chain l Hin Hl.
    destruct (lookup_prepared_builtin st f tc chain Hb Hin) as (ch & Hch & Hch').
    unfold rules_of in *. rewrite Hch in Hl. simpl in Hl. injection Hl as <-.
    rewrite Hch'. simpl. eexists; split; [done|]. split.
    + apply occurrences_heal_max.
    + by apply occurrences_heal.
Qed.

Lemma prepare_twice_witness :
  ∃ st1, run handle prepare (World tampered_filter []) = (Ok tt, World st1 []) ∧
    run handle prepare (World st1 []) = (Ok tt, World st1 []) ∧
    run handle (prepare ;; prepare) (World tampered_filter []) = (Ok tt, World st1 []) ∧
    (∀ f : bool, st1 !! (TABLE, DROP_CHAIN, f) =
                   Some (default (Chain [LOG_RULE; DROP_RULE] None)
                           (tampered_filter !! (TABLE, DROP_CHAIN, f)))) ∧
    (∀ (f : bool) target_chain chain l,
       (target_chain, chain) ∈ jump_pairs →
       rules_of tampered_filter (TABLE, chain, f) = Some l →
       ∃ l1, rules_of st1 (TABLE, chain, f) = Some l1 ∧
             occurrences (jump_to target_chain) l1 =
               Nat.max 1 (occurrences (jump_to target_chain) l) ∧
             (occurrences (jump_to target_chain) l ≤ 1 →
              occurrences (jump_to target_chain) l1 = 1)).
Proof. apply (prepare_twice tampered_filter []). vm_compute; reflexivity. Defined.

(** C6 as stated fails from a state in which a built-in chain holds its jump
    rule twice: with INPUT of IPv4 being a foreign rule and then two jump
    rules, one [prepare] and two [prepare]s both return and leave the jump
    rule, the foreign rule and the second jump rule, so two jump rules. *)
Lemma prepare_keeps_surplus_jump :
  builtin_chains twice_jumped_filter = true ∧
  occurrences (jump_to INPUT_CHAIN)
    [jump_to INPUT_CHAIN; foreign_rule; jump_to INPUT_CHAIN] = 2 ∧
  (run handle prepare (World twice_jumped_filter [])).1 = Ok tt ∧
  rules_of (filter_state (run handle prepare (World twice_jumped_filter [])).2)
    (TABLE, "INPUT", false) =
    Some [jump_to INPUT_CHAIN; foreign_rule; jump_to INPUT_CHAIN] ∧
  (run handle (prepare ;; prepare) (World twice_jumped_filter [])).1 = Ok tt ∧
  rules_of (filter_state (run handle (prepare ;; prepare) (World twice_jumped_filter [])).2)
    (TABLE, "INPUT", false) =
    Some [jump_to INPUT_CHAIN; foreign_rule; jump_to INPUT_CHAIN].
Proof. split_and!; vm_compute; reflexivity. Qed.

(** ** The rule lists handed to the backend *)

Lemma family_of_comprehension {A : Type} (g : A → rule) (f : bool) (l : list (A * bool)) :
  map fst (filter (λ ri : rule * bool, f = ri.2) (map (λ '(x, ipv6), (g x, ipv6)) l)) =
    map g (family_of f l).
Proof.
  induction l as [|[x b] l IH]; simpl; [done|].
  destruct (decide (b = f)) as [->|Hne].
  - rewrite filter_cons_True by done. simpl. by rewrite IH.
  - rewrite filter_cons_False by (simpl; congruence). done.
Qed.

Lemma elem_of_family_of {A : Type} (f : bool) (l : list (A * bool)) (x : A) :
  x ∈ family_of f l ↔ (x, f) ∈ l.
Proof.
  induction l as [|[y b] l IH]; simpl.
  - by rewrite !elem_of_nil.
  - case_decide as Hb.
    + subst b. rewrite !elem_of_cons, IH. naive_solver.
    + rewrite elem_of_cons, IH. naive_solver.
Qed.

Lemma add_rules_batches table chain (rules : list (rule * bool)) :
  add_rules table chain rules =
    two_batches table chain
      (map fst (filter (λ ri : rule * bool, false = ri.2) rules))
      (map fst (filter (λ ri : rule * bool, true = ri.2) rules)).
Proof. done. Qed.

Lemma network_dict_inj n n' : network_dict n = network_dict n' → n = n'.
Proof.
  intros Heq. assert (network_dict n !! "dst" = network_dict n' !! "dst") as Hd
    by by rewrite Heq.
  unfold network_dict in Hd. rewrite !lookup_insert_eq in Hd. by injection Hd.
Qed.

Lemma block_networks_batches (network_list : list (string * bool)) :
  block_networks network_list =
    two_batches TABLE OUTPUT_CHAIN
      (map network_dict (family_of false network_list))
      (map network_dict (family_of true network_list)).
Proof.
  unfold block_networks. rewrite add_rules_batches.
  by rewrite !(family_of_comprehension network_dict).
Qed.

(** C2: [block_networks] makes exactly two calls, one per family, IPv4 first,
    each of the form of [batch_add_rules] that replaces the rule list of
    WOTT_OUTPUT; the list handed over for a family has one rule
    [{'dst': n, 'target': 'WOTT_LOG_DROP'}] per network of that family, in
    input order.  So a family without networks gets the empty list, and a
    network that is not in the input has no rule in the list. *)
Theorem block_networks_replacement (network_list : list (string * bool)) :
  block_networks network_list =
    two_batches TABLE OUTPUT_CHAIN
      (map network_dict (family_of false network_list))
      (map network_dict (family_of true network_list)) ∧
  ∀ f : bool,
    ((∀ n, (n, f) ∉ network_list) → map network_dict (family_of f network_list) = []) ∧
    (∀ n, (n, f) ∉ network_list →
          network_dict n ∉ map network_dict (family_of f network_list)).
Proof.
  split; [apply block_networks_batches|].
  intros f. split.
  - intros Hnone. destruct (family_of f network_list) as [|n l] eqn:Hfam; [done|].
    exfalso. apply (Hnone n), elem_of_family_of. rewrite Hfam. by left.
  - intros n Hn Hin. apply list_elem_of_fmap in Hin as (n' & Heq & Hin).
    apply network_dict_inj in Heq as <-. by apply Hn, elem_of_family_of.
Qed.

Lemma block_networks_replacement_witness :
  block_networks [("10.0.0.0/8", false)] =
    two_batches TABLE OUTPUT_CHAIN
      (map network_dict (family_of false [("10.0.0.0/8", false)]))
      (map network_dict (family_of true [("10.0.0.0/8", false)])) ∧
  map network_dict (family_of true [("10.0.0.0/8", false)]) = [] ∧
  network_dict "10.1.1.1" ∉ map network_dict (family_of false [("10.0.0.0/8", false)]).
Proof.
  split; [apply (block_networks_replacement [("10.0.0.0/8", false)])|]. split.
  - apply (block_networks_replacement [("10.0.0.0/8", false)]).
    intros n Hin. apply list_elem_of_singleton in Hin. discriminate Hin.
  - apply (block_networks_replacement [("10.0.0.0/8", false)]).
    intros Hin. apply list_elem_of_singleton in Hin. discriminate Hin.
Defined.

(** As in the repository's test of [block_networks]: two IPv4 networks and
    no IPv6 one. *)
Example block_networks_two_ipv4 :
  block_networks [("192.168.1.0/24", false); ("10.0.0.1", false)] =
    two_batches "filter" "WOTT_OUTPUT"
      [network_dict "192.168.1.0/24"; network_dict "10.0.0.1"] [].
Proof. reflexivity. Qed.

Lemma port_dict_dst allow host proto port :
  port_dict allow host proto port !! "dst" = Some (VStr host).
Proof. unfold port_dict. rewrite lookup_insert_ne by done. apply lookup_insert_eq. Qed.

Lemma remove_unspecified_port_dict allow host proto port :
  remove_unspecified (port_dict allow host proto port) =
    Ret (port_rule allow (host, proto, port)).
Proof.
  unfold remove_unspecified, port_rule, unspecified. rewrite port_dict_dst.
  destruct (decide (host = "0.0.0.0" ∨ host = "::")) as [Hs|Hs].
  - rewrite !bool_decide_true; [done..|].
    destruct Hs as [->| ->]; set_solver.
  - rewrite !bool_decide_false; [done..|].
    intros Hin. apply Hs. set_solver.
Qed.

(** the comprehension of [block_ports] never raises [KeyError] *)
Lemma port_rules_comprehension allow (ports : list port_entry) :
  for_list ports (λ '(host, proto, port, ipv6),
     r ← remove_unspecified (port_dict allow host proto port); Ret (r, ipv6)) =
  Ret (map (λ '(e, ipv6), (port_rule allow e, ipv6)) ports).
Proof.
  induction ports as [|[[[host proto] port] ipv6] ports IH]; [done|].
  cbn [for_list map]. rewrite remove_unspecified_port_dict. cbn [bind].
  rewrite IH. done.
Qed.

Lemma block_ports_batches allow (ports : list port_entry) :
  block_ports allow ports =
    two_batches TABLE INPUT_CHAIN
      (map (port_rule allow) (family_of false ports))
      (map (port_rule allow) (family_of true ports)).
Proof.
  unfold block_ports. rewrite port_rules_comprehension. cbn [bind].
  rewrite add_rules_batches. by rewrite !(family_of_comprehension (port_rule allow)).
Qed.

(** ** The rules of [block_ports] *)

Lemma port_rule_plain allow host proto port :
  proto ∉ fixed_keys → port_rule_ok allow (host, proto, port) (port_rule allow (host, proto, port)).
Proof.
  unfold fixed_keys. intros Hp.
  assert (proto ≠ "protocol" ∧ proto ≠ "dst" ∧ proto ≠ "target") as (Hp1 & Hp2 & Hp3)
    by (split_and!; intros ->; apply Hp; set_solver).
  unfold port_rule_ok, port_rule, port_dict.
  destruct (unspecified host); split_and!.
  all: try (intros k Hk;
            assert (k ≠ "protocol" ∧ k ≠ proto ∧ k ≠ "dst" ∧ k ≠ "target")
              as (? & ? & ? & ?) by (split_and!; intros ->; apply Hk; set_solver)).
  all: rewrite ?lookup_delete_eq, ?lookup_delete_ne by done.
  all: repeat (first [rewrite lookup_insert_eq | rewrite lookup_insert_ne by done]).
  all: done.
Qed.

Lemma Forall2_port_rule_for allow (l : list (string * string * Z)) :
  Forall2 (port_rule_for allow) l (map (port_rule allow) l).
Proof.
  induction l as [|[[host proto] port] l IH]; simpl; constructor; [|done].
  intros Hp. by apply port_rule_plain.
Qed.

(** what [port_rule_ok] asks includes what [port_rule_matches] asks *)
Lemma port_rule_ok_matches allow e r : port_rule_ok allow e r → port_rule_matches allow e r.
Proof.
  destruct e as [[host proto] port]. intros (Hproto & Hport & Hdst & Htarget & _).
  split_and!; [done| |done..]. by exists proto.
Qed.

(** every entry has a rule that [port_rule_matches] accepts, also one whose
    protocol is named like a fixed key *)
Lemma port_rule_matches_satisfiable allow e : ∃ r, port_rule_matches allow e r.
Proof.
  destruct e as [[host proto] port]. unfold port_rule_matches.
  set (base := <["match" := VDict {[ "dport" := pretty port ]}]>
                 (<["target" := VStr (if allow then DROP_CHAIN else "ACCEPT")]>
                    ({[ "protocol" := VStr proto ]} : rule))).
  assert (port_match port base) as Hport by (exists "match"; apply lookup_insert_eq).
  destruct (unspecified host).
  - exists base. split_and!; [done|done|done|done].
  - exists (<["dst" := VStr host]> base). split_and!; [done| |apply lookup_insert_eq|done].
    exists "match". by rewrite lookup_insert_ne.
Qed.

(** C4, amended: whatever else is in the list, every entry whose protocol
    is not named like one of the keys ['protocol'], ['dst'], ['target'] that
    every port rule is built with gets one rule in the batch of its family,
    at the entry's place among the entries of that family; the rule matches
    the entry's protocol and destination port, has a ['dst'] match equal to
    the host exactly when the host is not ['0.0.0.0'] or ['::'], has target
    WOTT_LOG_DROP when [allow] is true and ACCEPT otherwise, and has no
    other key. *)
Theorem block_ports_rules (allow : bool) (ports_data : list port_entry) :
  ∃ rules4 rules6,
    block_ports allow ports_data = two_batches TABLE INPUT_CHAIN rules4 rules6 ∧
    Forall2 (port_rule_for allow) (family_of false ports_data) rules4 ∧
    Forall2 (port_rule_for allow) (family_of true ports_data) rules6.
Proof.
  eexists _, _. split; [apply block_ports_batches|].
  split; apply Forall2_port_rule_for.
Qed.

Lemma block_ports_rules_witness :
  ∃ rules4 rules6,
    block_ports true mixed_ports = two_batches TABLE INPUT_CHAIN rules4 rules6 ∧
    (∃ r, rules4 !! 0 = Some r ∧ port_rule_ok true ("0.0.0.0", "tcp", 22%Z) r) ∧
    (∃ r, rules6 !! 0 = Some r ∧ port_rule_ok true ("fe80::1", "udp", 53%Z) r).
Proof.
  destruct (block_ports_rules true mixed_ports) as (rules4 & rules6 & Hcalls & H4 & H6).
  exists rules4, rules6. split; [exact Hcalls|]. split.
  - destruct (Forall2_lookup_l _ _ _ 0 _ H4 eq_refl) as (r & Hr & Hok).
    exists r. split; [exact Hr|]. apply Hok.
    apply (bool_decide_unpack _). vm_compute. exact I.
  - destruct (Forall2_lookup_l _ _ _ 0 _ H6 eq_refl) as (r & Hr & Hok).
    exists r. split; [exact Hr|]. apply Hok.
    apply (bool_decide_unpack _). vm_compute. exact I.
Defined.

(** the rule derived from [('10.0.0.1', 'dst', 80, False)] has no match on
    the destination port under any key *)
Lemma port_rule_named_dst_no_port k :
  port_rule true ("10.0.0.1", "dst", 80%Z) !! k ≠ Some (VDict {[ "dport" := pretty 80%Z ]}).
Proof.
  assert (port_rule true ("10.0.0.1", "dst", 80%Z) =
            {[ "protocol" := VStr "dst"; "dst" := VStr "10.0.0.1";
               "target" := VStr "WOTT_LOG_DROP" ]}) as -> by (vm_compute; reflexivity).
  destruct (decide (k = "protocol")) as [->|?]; [by rewrite lookup_insert_eq|].
  rewrite lookup_insert_ne by done.
  destruct (decide (k = "dst")) as [->|?]; [by rewrite lookup_insert_eq|].
  rewrite lookup_insert_ne by done.
  destruct (decide (k = "target")) as [->|?]; [by rewrite lookup_singleton_eq|].
  by rewrite lookup_singleton_ne.
Qed.

(** C4 as stated fails for a protocol named like a fixed key: for the entry
    [('10.0.0.1', 'dst', 80, False)] the item ['dst': host] of the dict
    display replaces the item [proto: {'dport': '80'}], so the rule handed
    over has no match on the destination port, under any key. *)
Lemma block_ports_protocol_named_dst :
  ¬ ∃ rules4 rules6,
      block_ports true [("10.0.0.1", "dst", 80%Z, false)] =
        two_batches TABLE INPUT_CHAIN rules4 rules6 ∧
      Forall2 (port_rule_matches true)
        (family_of false [("10.0.0.1", "dst", 80%Z, false)]) rules4 ∧
      Forall2 (port_rule_matches true)
        (family_of true [("10.0.0.1", "dst", 80%Z, false)]) rules6.
Proof.
  intros (rules4 & rules6 & Hcalls & Hok & _).
  rewrite block_ports_batches in Hcalls.
  apply (f_equal first_batch) in Hcalls.
  change (Some [port_rule true ("10.0.0.1", "dst", 80%Z)] = Some rules4) in Hcalls.
  injection Hcalls as <-.
  apply Forall2_cons_1 in Hok as [(_ & [k Hport] & _) _].
  exact (port_rule_named_dst_no_port k Hport).
Qed.

(** the rule derived there: protocol and host only *)
Example port_rule_named_dst :
  port_rule true ("10.0.0.1", "dst", 80%Z) =
    {[ "protocol" := VStr "dst"; "dst" := VStr "10.0.0.1";
       "target" := VStr "WOTT_LOG_DROP" ]}.
Proof. vm_compute. reflexivity. Qed.

(** ** Batches on the backend *)

Lemma run_two_batches (st : state) chain rules4 rules6 lg :
  has_chains st chain = true →
  run handle (two_batches TABLE chain rules4 rules6) (World st lg) =
    (Ok tt, World (replaced chain rules4 rules6 st) lg).
Proof.
  rewrite has_chains_spec. intros Hc. unfold two_batches, replaced.
  erewrite run_Call_ok by (by apply handle_batch_replace, Hc). simpl filter_state.
  erewrite run_Call_ok; [done|]. simpl filter_state. apply handle_batch_replace.
  rewrite lookup_with_rules, decide_False by done. apply Hc.
Qed.

Lemma lookup_replaced (st : state) chain rules4 rules6 t c (f : bool) :
  replaced chain rules4 rules6 st !! (t, c, f) =
    if decide (t = TABLE ∧ c = chain)
    then (λ ch, Chain (if f then rules6 else rules4) (chain_policy ch)) <$> st !! (t, c, f)
    else st !! (t, c, f).
Proof.
  unfold replaced. rewrite !lookup_with_rules.
  destruct f; repeat case_decide; simplify_eq; try done; try naive_solver.
  all: by destruct (st !! _).
Qed.

Lemma has_chains_replaced (st : state) chain chain' rules4 rules6 :
  has_chains st chain' = true → has_chains (replaced chain rules4 rules6 st) chain' = true.
Proof.
  rewrite !has_chains_spec. intros Hc f. rewrite lookup_replaced.
  destruct (Hc f) as [ch Hch]. rewrite Hch. by case_decide.
Qed.

Lemma lookup_deny_family (st : state) f id :
  deny_family f st !! id =
    if decide (id = (TABLE, INPUT_CHAIN, f))
    then (λ ch, Chain (default_deny (chain_rules ch)) (chain_policy ch)) <$> st !! id
    else st !! id.
Proof.
  unfold deny_family. destruct (st !! (TABLE, INPUT_CHAIN, f)) eqn:Hd.
  - rewrite lookup_with_rules. repeat case_decide; simplify_eq; try done.
    by rewrite Hd.
  - case_decide; simplify_eq; [|done]. by rewrite Hd.
Qed.

Lemma run_add_block_rules (st : state) lg :
  has_chains st INPUT_CHAIN = true →
  run handle add_block_rules (World st lg) =
    (Ok tt, World (deny_family true (deny_family false st)) lg).
Proof.
  rewrite has_chains_spec. intros Hc. unfold add_block_rules.
  destruct (Hc false) as [ch4 H4].
  rewrite run_for_each_cons, run_call. simpl filter_state.
  rewrite (handle_batch_default_deny _ _ _ H4). next.
  assert (deny_family false st !! (TABLE, INPUT_CHAIN, true) =
            st !! (TABLE, INPUT_CHAIN, true)) as H6'
    by by rewrite lookup_deny_family, decide_False.
  destruct (Hc true) as [ch6 H6]. rewrite H6 in H6'.
  assert (with_rules (TABLE, INPUT_CHAIN, false) (default_deny (chain_rules ch4)) st =
            deny_family false st) as -> by (unfold deny_family; by rewrite H4).
  rewrite run_for_each_cons, run_call. simpl filter_state.
  rewrite (handle_batch_default_deny _ _ _ H6'). next.
  rewrite run_for_each_nil. simpl logged.
  unfold deny_family at 2. by rewrite H6'.
Qed.

Lemma run_block_networks (st : state) lg network_list :
  has_chains st OUTPUT_CHAIN = true →
  run handle (block_networks network_list) (World st lg) =
    (Ok tt, World (replaced OUTPUT_CHAIN
                     (map network_dict (family_of false network_list))
                     (map network_dict (family_of true network_list)) st) lg).
Proof.
  intros Hc. rewrite block_networks_batches. by apply run_two_batches.
Qed.

Lemma run_block_ports (st : state) lg allow ports :
  has_chains st INPUT_CHAIN = true →
  run handle (block_ports allow ports) (World st lg) =
    (Ok tt, World (replaced INPUT_CHAIN
                     (map (port_rule allow) (family_of false ports))
                     (map (port_rule allow) (family_of true ports)) st) lg).
Proof. intros Hc. rewrite block_ports_batches. by apply run_two_batches. Qed.

(** The full-replace law of the spec on the modelled backend: with the
    networks A and B blocked, blocking none empties the chain, and blocking
    B alone keeps B's rule only. *)
Example block_networks_full_replace_law :
  let a := ("10.0.0.0/8", false) in
  let b := ("192.168.0.0/16", false) in
  let blocked l st := filter_state (run handle (block_networks l) (World st [])).2 in
  let st := blocked [a; b] (prepared fresh_filter) in
  rules_of st (TABLE, OUTPUT_CHAIN, false) =
    Some [network_dict "10.0.0.0/8"; network_dict "192.168.0.0/16"] ∧
  rules_of (blocked [] st) (TABLE, OUTPUT_CHAIN, false) = Some [] ∧
  rules_of (blocked [b] st) (TABLE, OUTPUT_CHAIN, false) =
    Some [network_dict "192.168.0.0/16"].
Proof. split_and!; vm_compute; reflexivity. Qed.

(** ** [block_ports] on the backend *)

(** C3, amended: on the backend modelled from the spec, [block_ports] hands
    its rules to the input-policy chain through the same replacing batch
    call as [block_networks]: when the chain exists in both families the
    step returns, and afterwards the chain of each family holds exactly the
    rules derived from the entries of that family, in input order, whatever
    it held before; every other chain is as it was. *)
Theorem block_ports_replaces (st : state) (lg : list (level * string))
    (allow : bool) (ports_data : list port_entry) :
  has_chains st INPUT_CHAIN = true →
  ∃ st', run handle (block_ports allow ports_data) (World st lg) = (Ok tt, World st' lg) ∧
    (∀ f : bool, rules_of st' (TABLE, INPUT_CHAIN, f) =
                   Some (map (port_rule allow) (family_of f ports_data))) ∧
    (∀ t c (f : bool), ¬ (t = TABLE ∧ c = INPUT_CHAIN) → st' !! (t, c, f) = st !! (t, c, f)).
Proof.
  intros Hc. eexists. split; [by apply run_block_ports|]. split.
  - intros f. unfold rules_of. rewrite lookup_replaced, decide_True by done.
    rewrite has_chains_spec in Hc. destruct (Hc f) as [ch ->]. by destruct f.
  - intros t c f Hne. by rewrite lookup_replaced, decide_False.
Qed.

Lemma block_ports_replaces_witness :
  ∃ st', run handle (block_ports true [("0.0.0.0", "tcp", 80%Z, false)])
           (World ssh_blocked []) = (Ok tt, World st' []) ∧
    (∀ f : bool, rules_of st' (TABLE, INPUT_CHAIN, f) =
                   Some (map (port_rule true)
                           (family_of f [("0.0.0.0", "tcp", 80%Z, false)]))) ∧
    (∀ t c (f : bool), ¬ (t = TABLE ∧ c = INPUT_CHAIN) →
                       st' !! (t, c, f) = ssh_blocked !! (t, c, f)).
Proof.
  apply (block_ports_replaces ssh_blocked [] true [("0.0.0.0", "tcp", 80%Z, false)]).
  vm_compute; reflexivity.
Defined.

(** C3 as stated fails: with the rule for port 22 in the IPv4 chain,
    blocking port 80 leaves the chain with the rule for port 80 only. *)
Lemma block_ports_not_additive :
  ¬ additive_on (block_ports true [("0.0.0.0", "tcp", 80%Z, false)])
      ssh_blocked (TABLE, INPUT_CHAIN, false).
Proof.
  intros Hadd.
  assert (rules_of ssh_blocked (TABLE, INPUT_CHAIN, false) =
            Some [port_rule true ("0.0.0.0", "tcp", 22%Z)]) as Hbefore
    by (vm_compute; reflexivity).
  assert (has_chains ssh_blocked INPUT_CHAIN = true) as Hc by (vm_compute; reflexivity).
  pose proof (run_block_ports ssh_blocked [] true [("0.0.0.0", "tcp", 80%Z, false)] Hc)
    as Hrun.
  destruct (Hadd _ _ Hbefore Hrun) as (l' & Hafter & Hkept).
  assert (l' = [port_rule true ("0.0.0.0", "tcp", 80%Z)]) as ->.
  { apply (inj Some). rewrite <-Hafter. vm_compute; reflexivity. }
  specialize (Hkept (port_rule true ("0.0.0.0", "tcp", 22%Z))).
  rewrite !list_elem_of_singleton in Hkept. specialize (Hkept eq_refl).
  revert Hkept. apply (proj1 (bool_decide_eq_false _)). vm_compute; reflexivity.
Qed.

(** ** [block] *)

Section block_facts.
Context {S : Type} (h : backend S).

(** when the body of the [try] returns, so does [block] *)
Lemma run_block_ok doc (w w' : world S) :
  run h (block_try doc (default "allow" (bl_policy doc))) w = (Ok tt, w') →
  run h (block doc) w = (Ok tt, w').
Proof. intros Hbody. unfold block. by rewrite run_Try, Hbody. Qed.

(** the handler logs the error and then fails in [logger.debug] *)
Lemma run_block_except e (w : world S) :
  run h (block_except e) w =
    (Raise (TypeError "debug() missing 1 required positional argument: 'msg'"),
     World (filter_state w) (logged w ++ [(ERROR, "Error while updating iptables: " +:+ e)])).
Proof. done. Qed.

Lemma run_block_iptc_error doc (w w' : world S) e :
  run h (block_try doc (default "allow" (bl_policy doc))) w = (Raise (IPTCError e), w') →
  run h (block doc) w =
    (Raise (TypeError "debug() missing 1 required positional argument: 'msg'"),
     World (filter_state w')
       (logged w' ++ [(ERROR, "Error while updating iptables: " +:+ e)])).
Proof. intros Hbody. unfold block. by rewrite run_Try, Hbody, run_block_except. Qed.

(** C1: for every backend, when [prepare] returns and [block_networks] on
    the document's networks returns after it, [block] goes on from there by
    the policy (['allow'] when the document has none): for ['allow'] it is
    [block_ports] with [allow=True] on [block_ports]; for ['block'] it is
    [block_ports] with [allow=False] on [allow_ports] and then
    [add_block_rules]; for any other value the backend is left as
    [block_networks] left it and exactly one error record is logged. *)
Theorem block_orchestration (doc : blocklist) (w w1 w2 : world S) :
  run h prepare w = (Ok tt, w1) →
  run h (block_networks (default [] (bl_block_networks doc))) w1 = (Ok tt, w2) →
  let policy := default "allow" (bl_policy doc) in
  (policy = "allow" →
     ∀ w3, run h (block_ports true (default [] (bl_block_ports doc))) w2 = (Ok tt, w3) →
           run h (block doc) w = (Ok tt, w3)) ∧
  (policy = "block" →
     ∀ w3 w4, run h (block_ports false (default [] (bl_allow_ports doc))) w2 = (Ok tt, w3) →
              run h add_block_rules w3 = (Ok tt, w4) →
              run h (block doc) w = (Ok tt, w4)) ∧
  (policy ≠ "allow" → policy ≠ "block" →
     run h (block doc) w =
       (Ok tt, World (filter_state w2) (logged w2 ++ [(ERROR, unknown_policy_msg policy)]))).
Proof.
  intros Hprep Hnet policy.
  assert (∀ rest : prog unit,
            run h (prepare ;; block_networks (default [] (bl_block_networks doc)) ;; rest) w =
              run h rest w2) as Hhead.
  { intros rest. rewrite (run_seq_ok _ _ _ _ _ _ Hprep). apply (run_seq_ok _ _ _ _ _ _ Hnet). }
  split_and!.
  - intros Hpol w3 Hports. apply run_block_ok. fold policy. unfold block_try.
    rewrite Hhead. by rewrite bool_decide_true.
  - intros Hpol w3 w4 Hports Hdeny. apply run_block_ok. fold policy. unfold block_try.
    rewrite Hhead, bool_decide_false, bool_decide_true by (by rewrite ?Hpol).
    by rewrite (run_seq_ok _ _ _ _ _ _ Hports).
  - intros Hna Hnb. apply run_block_ok. fold policy. unfold block_try.
    rewrite Hhead, !bool_decide_false by done. apply run_logger_error.
Qed.

End block_facts.

Lemma block_orchestration_witness :
  (default "allow" (bl_policy unknown_policy_doc) = "allow" →
     ∀ w3, run handle (block_ports true (default [] (bl_block_ports unknown_policy_doc)))
             (World (replaced OUTPUT_CHAIN [network_dict "10.0.0.0/8"] []
                       (prepared fresh_filter)) []) = (Ok tt, w3) →
           run handle (block unknown_policy_doc) (World fresh_filter []) = (Ok tt, w3)) ∧
  (default "allow" (bl_policy unknown_policy_doc) = "block" →
     ∀ w3 w4,
       run handle (block_ports false (default [] (bl_allow_ports unknown_policy_doc)))
         (World (replaced OUTPUT_CHAIN [network_dict "10.0.0.0/8"] []
                   (prepared fresh_filter)) []) = (Ok tt, w3) →
       run handle add_block_rules w3 = (Ok tt, w4) →
       run handle (block unknown_policy_doc) (World fresh_filter []) = (Ok tt, w4)) ∧
  (default "allow" (bl_policy unknown_policy_doc) ≠ "allow" →
   default "allow" (bl_policy unknown_policy_doc) ≠ "block" →
     run handle (block unknown_policy_doc) (World fresh_filter []) =
       (Ok tt,
        World (replaced OUTPUT_CHAIN [network_dict "10.0.0.0/8"] [] (prepared fresh_filter))
          ([] ++ [(ERROR, unknown_policy_msg
                            (default "allow" (bl_policy unknown_policy_doc)))]))).
Proof.
  apply (block_orchestration handle unknown_policy_doc (World fresh_filter [])
           (World (prepared fresh_filter) [])
           (World (replaced OUTPUT_CHAIN [network_dict "10.0.0.0/8"] []
                     (prepared fresh_filter)) [])).
  - apply run_prepare. vm_compute; reflexivity.
  - apply (run_block_networks (prepared fresh_filter) [] [("10.0.0.0/8", false)]).
    vm_compute; reflexivity.
Defined.

(** The unknown-policy scenario of the spec: the network is blocked, the
    chains are there, the input-policy chain got no rule, and one error is
    logged. *)
Example block_unknown_policy :
  let rw := run handle (block unknown_policy_doc) (World fresh_filter []) in
  rw.1 = Ok tt ∧
  rules_of (filter_state rw.2) (TABLE, OUTPUT_CHAIN, false) =
    Some [network_dict "10.0.0.0/8"] ∧
  rules_of (filter_state rw.2) (TABLE, INPUT_CHAIN, false) = Some [] ∧
  rules_of (filter_state rw.2) (TABLE, "INPUT", false) = Some [jump_to INPUT_CHAIN] ∧
  logged rw.2 = [(ERROR, unknown_policy_msg "frobnicate")].
Proof. split_and!; vm_compute; reflexivity. Qed.

(** C7 fails on the code: a backend error inside [block] is caught and
    logged, but the handler's next statement, [logger.debug(exc_info=True)],
    calls [Logger.debug] without its required [msg] argument and raises
    [TypeError], which leaves [block]; the reboot hint after it is never
    logged, although the message contains ['insmod']. *)
Theorem block_backend_error_escapes :
  str_in "insmod" no_table_msg = true ∧
  run (failing no_table_msg) (block allow_doc) (World tt []) =
    (Raise (TypeError "debug() missing 1 required positional argument: 'msg'"),
     World tt [(ERROR, "Error while updating iptables: " +:+ no_table_msg)]).
Proof. split; vm_compute; reflexivity. Qed.

(** ** Restrictive mode on the backend *)

(** C8: on the backend modelled from the spec, [add_block_rules] turns an
    input-policy chain with rules [l] into loopback-accept,
    established-or-related-accept, [l], drop; and [block] with policy
    ['block'], which runs it after [block_ports], returns from every state
    that has the built-in chains and leaves the input-policy chain of each
    family as: the two accept rules, the rules of the [allow_ports] entries
    of that family in input order, and the unconditional drop last. *)
Theorem block_default_deny_last :
  (∀ (st : state) (lg : list (level * string)),
     has_chains st INPUT_CHAIN = true →
     ∃ st', run handle add_block_rules (World st lg) = (Ok tt, World st' lg) ∧
       ∀ (f : bool) l, rules_of st (TABLE, INPUT_CHAIN, f) = Some l →
         rules_of st' (TABLE, INPUT_CHAIN, f) =
           Some (LO_ACCEPT :: CONNTRACK_ACCEPT :: l ++ [DROP_RULE])) ∧
  (∀ (st : state) (lg : list (level * string)) (doc : blocklist),
     builtin_chains st = true →
     bl_policy doc = Some "block" →
     ∃ st', run handle (block doc) (World st lg) = (Ok tt, World st' lg) ∧
       ∀ f : bool,
         rules_of st' (TABLE, INPUT_CHAIN, f) =
           Some (LO_ACCEPT :: CONNTRACK_ACCEPT ::
                 map (port_rule false) (family_of f (default [] (bl_allow_ports doc))) ++
                 [DROP_RULE])).
Proof.
  split.
  - intros st lg Hc. eexists. split; [by apply run_add_block_rules|].
    intros f l Hl. unfold rules_of in *.
    destruct (st !! (TABLE, INPUT_CHAIN, f)) as [ch|] eqn:Hch; [|done].
    simpl in Hl. injection Hl as <-.
    destruct f.
    + rewrite lookup_deny_family, decide_True by done.
      by rewrite lookup_deny_family, decide_False, Hch by done.
    + rewrite lookup_deny_family, decide_False by done.
      by rewrite lookup_deny_family, decide_True, Hch by done.
  - intros st lg doc Hb Hpol.
    assert (∀ c, c = INPUT_CHAIN ∨ c = OUTPUT_CHAIN → has_chains (prepared st) c = true)
      as Hprep.
    { intros c Hc. apply has_chains_spec. intros f.
      destruct (lookup_prepared_policy_chain st c f Hc) as [p ->]. done. }
    set (nets := default [] (bl_block_networks doc)).
    set (ports := default [] (bl_allow_ports doc)).
    set (st2 := replaced OUTPUT_CHAIN (map network_dict (family_of false nets))
                  (map network_dict (family_of true nets)) (prepared st)).
    set (st3 := replaced INPUT_CHAIN (map (port_rule false) (family_of false ports))
                  (map (port_rule false) (family_of true ports)) st2).
    assert (has_chains st2 INPUT_CHAIN = true) as Hc2
      by (apply has_chains_replaced, Hprep; by left).
    assert (has_chains st3 INPUT_CHAIN = true) as Hc3
      by by apply has_chains_replaced.
    exists (deny_family true (deny_family false st3)). split.
    + apply run_block_ok. rewrite Hpol. simpl default. unfold block_try.
      rewrite (run_seq_ok _ _ _ _ _ _ (run_prepare st lg Hb)).
      rewrite (run_seq_ok _ _ _ _ _ _
                 (run_block_networks (prepared st) lg nets (Hprep _ (or_intror eq_refl)))).
      rewrite bool_decide_false, bool_decide_true by done.
      rewrite (run_seq_ok _ _ _ _ _ _ (run_block_ports st2 lg false ports Hc2)).
      by apply run_add_block_rules.
    + intros f. unfold rules_of.
      assert (st3 !! (TABLE, INPUT_CHAIN, f) =
                Some (Chain (map (port_rule false) (family_of f ports))
                        (prepared st !! (TABLE, INPUT_CHAIN, f) ≫= chain_policy))) as H3.
      { unfold st3, st2. rewrite lookup_replaced, decide_True by done.
        rewrite lookup_replaced, decide_False by (by intros [_ [=]]).
        destruct (lookup_prepared_policy_chain st INPUT_CHAIN f (or_introl eq_refl))
          as [p ->]. by destruct f. }
      destruct f.
      * rewrite lookup_deny_family, decide_True by done.
        by rewrite lookup_deny_family, decide_False, H3 by done.
      * rewrite lookup_deny_family, decide_False by done.
        by rewrite lookup_deny_family, decide_True, H3 by done.
Qed.

Lemma block_default_deny_last_witness :
  (∃ st', run handle add_block_rules (World ssh_blocked []) = (Ok tt, World st' []) ∧
     ∀ (f : bool) l, rules_of ssh_blocked (TABLE, INPUT_CHAIN, f) = Some l →
       rules_of st' (TABLE, INPUT_CHAIN, f) =
         Some (LO_ACCEPT :: CONNTRACK_ACCEPT :: l ++ [DROP_RULE])) ∧
  (∃ st', run handle (block block_doc) (World fresh_filter []) = (Ok tt, World st' []) ∧
     ∀ f : bool,
       rules_of st' (TABLE, INPUT_CHAIN, f) =
         Some (LO_ACCEPT :: CONNTRACK_ACCEPT ::
               map (port_rule false) (family_of f (default [] (bl_allow_ports block_doc))) ++
               [DROP_RULE])).
Proof.
  split.
  - apply (proj1 block_default_deny_last ssh_blocked []). vm_compute; reflexivity.
  - apply (proj2 block_default_deny_last fresh_filter [] block_doc).
    + vm_compute; reflexivity.
    + reflexivity.
Defined.

(** ** [dump] *)

Lemma filter_const {A : Type} (P : Prop) `{!Decision P} (l : list A) :
  filter (λ _, P) l = if decide P then l else [].
Proof.
  induction l as [|x l IH]; [by case_decide|].
  case_decide.
  - by rewrite filter_cons_True, IH by done.
  - by rewrite filter_cons_False, IH by done.
Qed.

Section dump_facts.
Context (tbl : string → bool → gmap string (list rule)).
Context (pol : string → string → bool → option string).

Lemma run_dump_chain t f chains item (w : world unit) :
  run (reader tbl pol) (dump_chain t f chains item) w =
    (Ok (chains_step pol t f chains item), w).
Proof.
  destruct item as [c rs], w as [[] lg]. unfold dump_chain, chains_step, dump_entry.
  rewrite run_bind, run_call. simpl. rewrite filter_const.
  destruct (decide (c = OUTPUT_CHAIN)) as [->|Hc].
  - by rewrite decide_False by (by intros []).
  - by rewrite decide_True by done.
Qed.

Lemma run_dump_chains t f l acc (w : world unit) :
  run (reader tbl pol) (for_fold l acc (dump_chain t f)) w =
    (Ok (foldl (chains_step pol t f) acc l), w).
Proof.
  revert acc. induction l as [|item l IH]; intros acc; [done|].
  simpl for_fold. rewrite run_bind, run_dump_chain. next. apply IH.
Qed.

Lemma lookup_foldl_chains_step t f (l : list (string * list rule)) acc c :
  NoDup l.*1 →
  foldl (chains_step pol t f) acc l !! c =
    match (list_to_map l : gmap string (list rule)) !! c with
    | Some rs => Some (dump_entry c rs (pol t c f))
    | None => acc !! c
    end.
Proof.
  revert acc. induction l as [|[c0 rs0] l IH]; intros acc Hnd; [done|].
  apply NoDup_cons in Hnd as [Hc0 Hnd]. simpl foldl. rewrite IH by done.
  simpl list_to_map. unfold chains_step; simpl.
  destruct (decide (c0 = c)) as [->|Hne].
  - rewrite lookup_insert_eq.
    by rewrite (not_elem_of_list_to_map_1 _ _ Hc0), lookup_insert_eq.
  - by rewrite !lookup_insert_ne by done.
Qed.

Lemma lookup_chains_of t f c :
  chains_of tbl pol t f !! c = (λ rs, dump_entry c rs (pol t c f)) <$> tbl t f !! c.
Proof.
  unfold chains_of. rewrite lookup_foldl_chains_step by apply NoDup_fst_map_to_list.
  rewrite list_to_map_to_list. by destruct (tbl t f !! c).
Qed.

Lemma run_dump_table_family tables t f (w : world unit) :
  run (reader tbl pol) (dump_table_family tables (t, f)) w =
    (Ok (alter (insert t (chains_of tbl pol t f)) (family_key f) tables), w).
Proof.
  destruct w as [[] lg]. unfold dump_table_family.
  rewrite run_bind, run_call. simpl filter_state. simpl reader. next.
  rewrite run_bind, run_dump_chains. next. done.
Qed.

Lemma run_dump (w : world unit) :
  run (reader tbl pol) dump w =
    (Ok {[ "v6" := exported tbl pol true; "v4" := exported tbl pol false ]}, w).
Proof.
  unfold dump. cbn [list_prod map app].
  do 6 (cbn [for_fold]; rewrite run_bind, run_dump_table_family; next).
  cbn [for_fold run]. apply (f_equal (λ x, (Ok x, w))).
  apply map_eq. intros k. unfold family_key, exported.
  rewrite !lookup_alter, !lookup_insert.
  repeat case_decide; simplify_eq; try done.
  by rewrite !lookup_singleton_ne.
Qed.

Lemma lookup_exported f t :
  exported tbl pol f !! t =
    if bool_decide (t ∈ ["filter"; "nat"; "mangle"]) then Some (chains_of tbl pol t f)
    else None.
Proof.
  unfold exported. destruct (decide (t ∈ ["filter"; "nat"; "mangle"])) as [Hin|Hnin].
  - rewrite bool_decide_true by done.
    rewrite !elem_of_cons, elem_of_nil in Hin.
    destruct Hin as [->|[->|[->|[]]]]; by rewrite !lookup_insert.
  - rewrite bool_decide_false by done.
    rewrite !lookup_insert_ne, lookup_empty; [done|intros <-; apply Hnin; set_solver..].
Qed.

Lemma lookup_dump_entry c rs policy :
  dump_entry c rs policy !! "rules" =
    Some (Rules (if decide (c = OUTPUT_CHAIN) then [] else rs)) ∧
  dump_entry c rs policy !! "policy" =
    (if truthy policy then Policy <$> policy else None) ∧
  ∀ k, k ≠ "rules" → k ≠ "policy" → dump_entry c rs policy !! k = None.
Proof.
  unfold dump_entry. destruct policy as [p|]; simpl.
  - destruct (negb (bool_decide (p = ""))); split_and!; try done.
    + intros k ? ?. by rewrite lookup_insert_ne, lookup_singleton_ne.
    + intros k ? ?. by rewrite lookup_singleton_ne.
  - split_and!; try done. intros k ? ?. by rewrite lookup_singleton_ne.
Qed.

End dump_facts.

(** C10: whatever tables and policies the backend reports, [dump] returns a
    dict with the keys ['v4'] and ['v6'], each holding the tables
    ['filter'], ['nat'] and ['mangle'] and no other; a table holds one entry
    per chain the backend lists for it.  The entry has the chain's rule list
    under ['rules'], ['policy'] when the reported policy is true in Python's
    sense (neither [None] nor empty), and no other key; only for a chain
    named WOTT_OUTPUT the list under ['rules'] is empty whatever rules the
    chain has. *)
Theorem dump_export (tbl : string → bool → gmap string (list rule))
    (pol : string → string → bool → option string) (w : world unit) :
  ∃ tables, run (reader tbl pol) dump w = (Ok tables, w) ∧
    (∀ k, k ≠ "v4" → k ≠ "v6" → tables !! k = None) ∧
    ∀ f : bool, ∃ family, tables !! family_key f = Some family ∧
      (∀ t, t ∉ ["filter"; "nat"; "mangle"] → family !! t = None) ∧
      ∀ t, t ∈ ["filter"; "nat"; "mangle"] →
        ∃ chains, family !! t = Some chains ∧
          ∀ c, match tbl t f !! c with
               | Some rs =>
                   ∃ entry, chains !! c = Some entry ∧
                     entry !! "rules" =
                       Some (Rules (if decide (c = OUTPUT_CHAIN) then [] else rs)) ∧
                     entry !! "policy" =
                       (if truthy (pol t c f) then Policy <$> pol t c f else None) ∧
                     ∀ k, k ≠ "rules" → k ≠ "policy" → entry !! k = None
               | None => chains !! c = None
               end.
Proof.
  eexists. split; [apply run_dump|]. split.
  - intros k H4 H6. by rewrite lookup_insert_ne, lookup_singleton_ne.
  - intros f. exists (exported tbl pol f). split_and!.
    + by destruct f.
    + intros t Ht. by rewrite lookup_exported, bool_decide_false.
    + intros t Ht. exists (chains_of tbl pol t f). split.
      * by rewrite lookup_exported, bool_decide_true.
      * intros c. rewrite lookup_chains_of. destruct (tbl t f !! c) as [rs|]; [|done].
        eexists. split; [done|]. apply lookup_dump_entry.
Qed.

(** A chain WOTT_OUTPUT with a rule shows up in the export without it. *)
Example dump_hides_output_rules :
  ∃ tables, run (reader example_tables example_policies) dump (World tt []) =
              (Ok tables, World tt []) ∧
    export_chain tables "v4" "filter" OUTPUT_CHAIN = Some {[ "rules" := Rules [] ]} ∧
    export_chain tables "v4" "filter" "INPUT" =
      Some {[ "rules" := Rules [jump_to INPUT_CHAIN]; "policy" := Policy "ACCEPT" ]}.
Proof. eexists. split; [apply run_dump|]. split; vm_compute; reflexivity. Qed.

(** * Further properties *)

(** ** The calls of a program *)

Lemma every_call_bind (P : ∀ X : Type, iptc_helper X → Prop) {A B : Type} (m : prog A) (f : A → prog B) :
  every_call P m → (∀ a, every_call P (f a)) → every_call P (bind m f).
Proof.
  intros Hm. revert B f.
  induction Hm as [A a|A X c k Hc _ IH|A lvl msg k _ IH|A e|A body ex k Hb _ He _ _ IH];
    intros B f Hf; simpl.
  - apply Hf.
  - constructor; [done|]. intros x. by apply IH.
  - constructor. by apply IH.
  - constructor.
  - constructor; [done..|]. by apply IH.
Qed.

Lemma every_call_call (P : ∀ X : Type, iptc_helper X → Prop) {X : Type} (c : iptc_helper X) : P X c → every_call P (call c).
Proof. intros Hc. constructor; [done|]. intros x. constructor. Qed.

Lemma every_call_for_each (P : ∀ X : Type, iptc_helper X → Prop) {A : Type} (l : list A) (body : A → prog unit) :
  (∀ x, x ∈ l → every_call P (body x)) → every_call P (for_each l body).
Proof.
  induction l as [|x l IH]; intros Hbody; simpl; [constructor|].
  apply every_call_bind; [apply Hbody; by left|].
  intros _. apply IH. intros y Hy. apply Hbody. by right.
Qed.

Lemma every_call_for_fold (P : ∀ X : Type, iptc_helper X → Prop) {A B : Type} (l : list A) (acc : B) (body : B → A → prog B) :
  (∀ acc x, every_call P (body acc x)) → every_call P (for_fold l acc body).
Proof.
  intros Hbody. revert acc. induction l as [|x l IH]; intros acc; simpl; [constructor|].
  apply every_call_bind; [apply Hbody|]. intros acc'. apply IH.
Qed.

(** a step that keeps an invariant of the backend state at every call keeps
    it over the whole run, whether the run returns or raises *)
Lemma every_call_preserves {S : Type} (h : backend S) (I : S → Prop)
    (P : ∀ X : Type, iptc_helper X → Prop) :
  (∀ X c s, P X c → I s → I (h X c s).2) →
  ∀ (A : Type) (p : prog A), every_call P p →
    ∀ w, I (filter_state w) → I (filter_state (run h p w).2).
Proof.
  intros Hstep A p Hp.
  induction Hp as [A a|A X c k Hc _ IH|A lvl msg k _ IH|A e|A body ex k _ IHb _ IHe _ IHk];
    intros w Hw; simpl.
  - done.
  - pose proof (Hstep X c (filter_state w) Hc Hw) as Hs.
    destruct (h X c (filter_state w)) as [[msg|x] s]; simpl in *; [done|].
    by apply IH.
  - by apply IH.
  - done.
  - pose proof (IHb w Hw) as Hb.
    destruct (run h body w) as [[[]|[msg|msg|key]] w']; simpl in *; try done.
    + by apply IHk.
    + pose proof (IHe msg w' Hb) as He.
      destruct (run h (ex msg) w') as [[[]|e] w'']; simpl in *; [by apply IHk|done].
Qed.

(** ** What [block] and [dump] call *)

Lemma every_call_two_batches (P : ∀ X : Type, iptc_helper X → Prop)
    table chain rules4 rules6 :
  (∀ l f, P unit (batch_add_rules table (RuleList l) (Some chain) f)) →
  every_call P (two_batches table chain rules4 rules6).
Proof.
  intros Hb. unfold two_batches. constructor; [apply Hb|]. intros _.
  constructor; [apply Hb|]. intros _. constructor.
Qed.

Lemma reconciler_call_batch chain l f :
  chain ∈ policy_chains →
  reconciler_call unit (batch_add_rules TABLE (RuleList l) (Some chain) f).
Proof. intros Hc. simpl. auto. Qed.

Lemma every_call_prepare : every_call reconciler_call prepare.
Proof.
  assert (DROP_CHAIN ∈ DROP_CHAIN :: policy_chains) as Hdrop by by left.
  assert (INPUT_CHAIN ∈ policy_chains) as Hin by by left.
  assert (OUTPUT_CHAIN ∈ policy_chains) as Hout by (right; by left).
  assert (∀ ch, ch ∈ policy_chains → ch ∈ DROP_CHAIN :: policy_chains) as Hsub
    by (intros ch Hch; by right).
  unfold prepare. apply every_call_for_each. intros f _. unfold prepare_family.
  apply every_call_bind; [by apply every_call_call|]. intros has_drop.
  apply every_call_bind.
  { destruct has_drop; cbn [negb]; cbv iota; [constructor|].
    apply every_call_bind; [by apply every_call_call|].
    intros _. apply every_call_call. simpl. auto. }
  intros _. apply every_call_bind; [apply every_call_call; simpl; auto|].
  intros has_input. apply every_call_bind.
  { destruct has_input; cbn [negb]; cbv iota; apply every_call_call; simpl; auto. }
  intros _. apply every_call_bind; [apply every_call_call; simpl; auto|].
  intros has_output. apply every_call_bind.
  { destruct has_output; cbn [negb]; cbv iota; apply every_call_call; simpl; auto. }
  intros _. apply every_call_for_each. intros [tc chain] Hpair. unfold prepare_jump.
  assert ((chain, jump_to tc) ∈ jump_rules ∧ chain ∈ ["INPUT"; "OUTPUT"]) as [Hj Hc].
  { unfold jump_rules. set_unfold in Hpair.
    destruct Hpair as [[= -> ->]|[[= -> ->]|[]]]; split; set_solver. }
  apply every_call_bind; [by apply every_call_call|].
  intros first_rule. case_bool_decide; [|constructor].
  apply every_call_bind; [by apply every_call_call|intros; by apply every_call_call].
Qed.

Lemma every_call_add_block_rules : every_call reconciler_call add_block_rules.
Proof.
  unfold add_block_rules. apply every_call_for_each. intros f _.
  apply every_call_call. simpl. split; [done|]. by repeat constructor.
Qed.

Lemma every_call_block_try doc policy :
  every_call reconciler_call (block_try doc policy).
Proof.
  assert (INPUT_CHAIN ∈ policy_chains) as Hin by by left.
  assert (OUTPUT_CHAIN ∈ policy_chains) as Hout by (right; by left).
  unfold block_try. apply every_call_bind; [apply every_call_prepare|]. intros _.
  apply every_call_bind.
  { rewrite block_networks_batches. apply every_call_two_batches.
    intros l f. by apply reconciler_call_batch. }
  intros _. repeat case_bool_decide.
  - rewrite block_ports_batches. apply every_call_two_batches.
    intros l f. by apply reconciler_call_batch.
  - apply every_call_bind; [|intros _; apply every_call_add_block_rules].
    rewrite block_ports_batches. apply every_call_two_batches.
    intros l f. by apply reconciler_call_batch.
  - repeat constructor.
Qed.

Lemma every_call_block doc : every_call reconciler_call (block doc).
Proof.
  unfold block. constructor.
  - apply every_call_block_try.
  - intros e. unfold block_except. repeat constructor.
  - constructor.
Qed.

(** X1: whatever the document and whatever the backend answers, every call
    [block] makes is on the filter table and is one of: an existence check
    or creation of WOTT_LOG_DROP, WOTT_INPUT or WOTT_OUTPUT; a flush of
    WOTT_INPUT or WOTT_OUTPUT; a read of rule 1 of INPUT or OUTPUT; a
    deletion ([raise_exc=False]) or an insertion at position 1 of the jump
    rule of INPUT or OUTPUT; a rule list for WOTT_INPUT or WOTT_OUTPUT; the
    two static rules for WOTT_LOG_DROP; positioned inserts into WOTT_INPUT.
    It never reads a table or a policy. *)
Theorem block_calls (doc : blocklist) : every_call reconciler_call (block doc).
Proof. apply every_call_block. Qed.

Lemma every_call_dump : every_call read_call dump.
Proof.
  unfold dump. apply every_call_for_fold. intros tables [t f]. unfold dump_table_family.
  apply every_call_bind; [by apply every_call_call|]. intros table.
  apply every_call_bind; [|intros; constructor].
  apply every_call_for_fold. intros chains [c rs]. unfold dump_chain.
  apply every_call_bind; [by apply every_call_call|]. intros policy. constructor.
Qed.

(** X2: [dump] only reads: it makes no call but [dump_table] and
    [get_policy], so on every backend whose two reads leave the state as it
    is, the state after [dump] is the state before it, whether [dump]
    returns or raises. *)
Theorem dump_reads_only {S : Type} (h : backend S) (w : world S) :
  (∀ t f s, (h _ (dump_table t f) s).2 = s) →
  (∀ t c f s, (h _ (get_policy t c f) s).2 = s) →
  every_call read_call dump ∧ filter_state (run h dump w).2 = filter_state w.
Proof.
  intros Hdump Hpol. split; [apply every_call_dump|].
  apply (every_call_preserves h (λ s, s = filter_state w) read_call);
    [|apply every_call_dump|done].
  intros X c s Hc ->. destruct c; simpl in Hc; try done; auto.
Qed.

Lemma handle_reads_pure :
  (∀ t f (s : state), (handle _ (dump_table t f) s).2 = s) ∧
  (∀ t c f (s : state), (handle _ (get_policy t c f) s).2 = s).
Proof.
  split; [done|]. intros t c f s. simpl. unfold on_chain. by destruct (s !! _).
Qed.

Lemma dump_reads_only_witness :
  every_call read_call dump ∧
  filter_state (run handle dump (World tampered_filter [])).2 = tampered_filter.
Proof.
  apply (dump_reads_only handle (World tampered_filter []));
    [apply handle_reads_pure|apply handle_reads_pure].
Defined.

(** ** What [block] leaves alone on the backend *)

Lemma do_inserts_frame (s : state) t f ts id :
  Forall (λ tr : string * rule * nat, tr.1.1 = INPUT_CHAIN) ts →
  id ≠ (t, INPUT_CHAIN, f) →
  (do_inserts t f ts s).2 !! id = s !! id.
Proof.
  intros Hts Hid. revert s. induction Hts as [|[[ch r] pos] ts Hch _ IH]; intros s; [done|].
  simpl in Hch. subst ch. simpl. unfold do_add_rule, on_chain.
  destruct (s !! (t, INPUT_CHAIN, f)) as [c|]; [|done].
  destruct (insert_at pos r (chain_rules c)) as [l|]; [|done].
  rewrite IH. by rewrite lookup_set_rules, decide_False.
Qed.

Lemma in_reconciler_chains ch :
  ch ∈ DROP_CHAIN :: policy_chains ∨ ch ∈ ["INPUT"; "OUTPUT"] → ch ∈ reconciler_chains.
Proof. unfold reconciler_chains, policy_chains. set_solver. Qed.

Lemma in_jump_rules ch r : (ch, r) ∈ jump_rules → ch ∈ reconciler_chains.
Proof. unfold jump_rules, reconciler_chains. set_solver. Qed.

Lemma handle_reconciler_frame (X : Type) (c : iptc_helper X) (s : state) t ch f :
  reconciler_call X c → ¬ (t = TABLE ∧ ch ∈ reconciler_chains) →
  (handle X c s).2 !! (t, ch, f) = s !! (t, ch, f).
Proof.
  intros Hc Hforeign.
  assert (∀ ch' f', ch' ∈ reconciler_chains → (TABLE, ch', f') ≠ (t, ch, f)) as Hne
    by (intros ch' f' Hch' [= <- <- <-]; by apply Hforeign).
  destruct c; simpl in Hc; try done; simpl; unfold do_add_rule, on_chain.
  - destruct Hc as [-> Hch]. destruct (s !! _); [done|]. simpl.
    rewrite lookup_set_rules, decide_False; [done|].
    by apply Hne, in_reconciler_chains; left.
  - destruct Hc as [-> Hch]. destruct (s !! _); [|done]. simpl.
    rewrite lookup_set_rules, decide_False; [done|].
    apply Hne, in_reconciler_chains. left. by right.
  - by destruct (s !! _).
  - destruct Hc as (-> & Hch & ->). destruct (s !! _); [|done]. simpl.
    rewrite lookup_set_rules, decide_False; [done|]. by eapply Hne, in_jump_rules.
  - destruct Hc as (-> & Hch & ->). destruct (s !! _); [|done].
    case_decide; [|done]. simpl.
    rewrite lookup_set_rules, decide_False; [done|]. by eapply Hne, in_jump_rules.
  - destruct batch_rules as [l|ts], chain as [ch'|]; try done.
    + destruct Hc as [-> Hch]. unfold on_chain. destruct (s !! _); [|done]. simpl.
      rewrite lookup_set_rules, decide_False; [done|].
      apply Hne, in_reconciler_chains. left.
      destruct Hch as [Hch|[-> _]]; [by right|by left].
    + destruct Hc as [-> Hts]. apply do_inserts_frame; [done|].
      apply not_eq_sym, Hne. unfold reconciler_chains. set_solver.
Qed.

(** X3: on the backend modelled from the spec, [block] leaves every chain
    other than INPUT, OUTPUT, WOTT_LOG_DROP, WOTT_INPUT and WOTT_OUTPUT of
    the filter table exactly as it was (rules, policy, existence), for every
    document and every state, whether it returns or raises. *)
Theorem block_frame (st : state) (lg : list (level * string)) (doc : blocklist)
    (t ch : string) (f : bool) :
  ¬ (t = TABLE ∧ ch ∈ reconciler_chains) →
  filter_state (run handle (block doc) (World st lg)).2 !! (t, ch, f) = st !! (t, ch, f).
Proof.
  intros Hforeign.
  apply (every_call_preserves handle (λ s, s !! (t, ch, f) = st !! (t, ch, f))
           reconciler_call); [|apply every_call_block|done].
  intros X c s Hc <-. by apply handle_reconciler_frame.
Qed.

Lemma block_frame_witness :
  filter_state (run handle (block block_doc) (World tampered_filter [])).2
    !! ("nat", "PREROUTING", false) =
  tampered_filter !! ("nat", "PREROUTING", false).
Proof.
  apply (block_frame tampered_filter [] block_doc "nat" "PREROUTING" false).
  intros [Htable _]. discriminate Htable.
Defined.

Lemma foreign_rules_set_rules_ne (s : state) tc id id' l p :
  id' ≠ id → foreign_rules tc (set_rules id' l p s) id = foreign_rules tc s id.
Proof.
  intros Hne. unfold foreign_rules, rules_of. by rewrite lookup_set_rules, decide_False.
Qed.

Lemma handle_reconciler_foreign_rules (X : Type) (c : iptc_helper X) (s : state)
    tc chain f :
  reconciler_call X c → (tc, chain) ∈ jump_pairs →
  foreign_rules tc (handle X c s).2 (TABLE, chain, f) =
    foreign_rules tc s (TABLE, chain, f).
Proof.
  intros Hc Hpair.
  assert (chain ∈ ["INPUT"; "OUTPUT"] ∧ (chain, jump_to tc) ∈ jump_rules ∧
          ∀ r, (chain, r) ∈ jump_rules → r = jump_to tc) as (Hchain & Hjump & Hown).
  { unfold jump_pairs, jump_rules in *. set_unfold in Hpair.
    destruct Hpair as [[= -> ->]|[[= -> ->]|[]]]; split_and!; set_solver. }
  assert (∀ ch' f', ch' ∈ DROP_CHAIN :: policy_chains →
            (TABLE, ch', f') ≠ (TABLE, chain, f)) as Hne.
  { intros ch' f' Hch' [= -> ->]. unfold policy_chains in Hch'.
    set_unfold in Hchain. set_unfold in Hch'.
    destruct Hchain as [->|[->|[]]]; naive_solver. }
  destruct c; simpl in Hc; try done; simpl; unfold do_add_rule, on_chain.
  - destruct Hc as [-> Hch]. destruct (s !! _); [done|]. simpl.
    by apply foreign_rules_set_rules_ne, Hne.
  - destruct Hc as [-> Hch]. destruct (s !! _); [|done]. simpl.
    apply foreign_rules_set_rules_ne, Hne. by right.
  - by destruct (s !! _).
  - destruct Hc as (-> & Hch & ->).
    destruct (s !! (TABLE, chain0, ipv6)) as [cs|] eqn:Hcs; [|done]. simpl.
    destruct (decide ((TABLE, chain0, ipv6) = (TABLE, chain, f))) as [[= -> ->]|Hid];
      [|by apply foreign_rules_set_rules_ne].
    apply Hown in Hch as ->. unfold foreign_rules, rules_of.
    rewrite lookup_set_rules, decide_True, Hcs by done. simpl.
    by rewrite filter_cons_False by (intros ?; done).
  - destruct Hc as (-> & Hch & ->).
    destruct (s !! (TABLE, chain0, ipv6)) as [cs|] eqn:Hcs; [|done].
    case_decide; [|done]. simpl.
    destruct (decide ((TABLE, chain0, ipv6) = (TABLE, chain, f))) as [[= -> ->]|Hid];
      [|by apply foreign_rules_set_rules_ne].
    apply Hown in Hch as ->. unfold foreign_rules, rules_of.
    rewrite lookup_set_rules, decide_True, Hcs by done. simpl.
    by rewrite filter_remove_first.
  - destruct batch_rules as [l|ts], chain0 as [ch'|]; try done.
    + destruct Hc as [-> Hch]. unfold on_chain. destruct (s !! _); [|done]. simpl.
      apply foreign_rules_set_rules_ne, Hne.
      destruct Hch as [Hch|[-> _]]; [by right|by left].
    + destruct Hc as [-> Hts]. unfold foreign_rules, rules_of.
      rewrite do_inserts_frame; [done..|]. apply not_eq_sym, Hne. right. by left.
Qed.

(** X4: on the backend modelled from the spec, [block] keeps the rules of
    the built-in chains INPUT and OUTPUT that are not its own jump rule:
    for every document and every state, whether [block] returns or raises,
    these rules are the same before and after, in the same order (and a
    built-in chain is neither created nor removed). *)
Theorem block_keeps_foreign_rules (st : state) (lg : list (level * string))
    (doc : blocklist) (f : bool) (target_chain chain : string) :
  (target_chain, chain) ∈ jump_pairs →
  foreign_rules target_chain (filter_state (run handle (block doc) (World st lg)).2)
    (TABLE, chain, f) =
  foreign_rules target_chain st (TABLE, chain, f).
Proof.
  intros Hpair.
  apply (every_call_preserves handle
           (λ s, foreign_rules target_chain s (TABLE, chain, f) =
                 foreign_rules target_chain st (TABLE, chain, f))
           reconciler_call); [|apply every_call_block|done].
  intros X c s Hc <-. by apply handle_reconciler_foreign_rules.
Qed.

Lemma block_keeps_foreign_rules_witness :
  foreign_rules INPUT_CHAIN
    (filter_state (run handle (block block_doc) (World tampered_filter [])).2)
    (TABLE, "INPUT", false) =
  foreign_rules INPUT_CHAIN tampered_filter (TABLE, "INPUT", false).
Proof.
  apply (block_keeps_foreign_rules tampered_filter [] block_doc false INPUT_CHAIN "INPUT").
  unfold jump_pairs. constructor.
Defined.

(** ** How [block] ends *)

Section run_raising_facts.
Context {S : Type} (h : raising_backend S).

Lemma run_raising_bind {A B : Type} (m : prog A) (f : A → prog B) (w : world S) :
  run_raising h (bind m f) w =
    and_then_raising (run_raising h m w) (λ a, run_raising h (f a)).
Proof.
  revert B f w. induction m as [A a|A X c k IH|A lvl msg k IH|A e|A body _ ex _ k IH]
    using prog_ind; intros B f w; simpl.
  - done.
  - destruct (h X c (filter_state w)) as [[[msg|cls msg]|x] s]; [done|done|apply IH].
  - apply IH.
  - done.
  - destruct (run_raising h body w) as [[[]|[msg| |]|cls m] w']; simpl; try done.
    destruct (run_raising h (ex msg) w') as [[[]|e|cls m] w'']; simpl; done.
Qed.

(** a program that only calls returns, passes on the [IPTCError] of a call,
    or is left by the exception of another class; it logs nothing *)
Lemma run_raising_calls_only {A : Type} (p : prog A) (w : world S) :
  calls_only p →
  logged (run_raising h p w).2 = logged w ∧
  ((∃ a, (run_raising h p w).1 = Returns a) ∨
   (∃ msg, (run_raising h p w).1 = Raises (IPTCError msg)) ∨
   (∃ cls msg, (run_raising h p w).1 = Escapes cls msg)).
Proof.
  intros Hp. revert w. induction Hp as [A a|A X c k _ IH]; intros w; simpl.
  - split; [done|]. left. eauto.
  - destruct (h X c (filter_state w)) as [[[msg|cls msg]|x] s]; simpl.
    + split; [done|]. right. left. eauto.
    + split; [done|]. right. right. eauto.
    + apply (IH x (World s (logged w))).
Qed.

End run_raising_facts.

Lemma calls_only_bind {A B : Type} (m : prog A) (f : A → prog B) :
  calls_only m → (∀ a, calls_only (f a)) → calls_only (bind m f).
Proof.
  intros Hm. revert B f.
  induction Hm as [A a|A X c k _ IH]; intros B f Hf; simpl.
  - apply Hf.
  - constructor. intros x. by apply IH.
Qed.

Lemma calls_only_call {X : Type} (c : iptc_helper X) : calls_only (call c).
Proof. constructor. intros x. constructor. Qed.

Lemma calls_only_for_each {A : Type} (l : list A) (body : A → prog unit) :
  (∀ x, calls_only (body x)) → calls_only (for_each l body).
Proof.
  intros Hbody. induction l as [|x l IH]; simpl; [constructor|].
  apply calls_only_bind; [apply Hbody|]. by intros _.
Qed.

Lemma calls_only_two_batches table chain rules4 rules6 :
  calls_only (two_batches table chain rules4 rules6).
Proof. unfold two_batches. repeat (constructor; intros). Qed.

Lemma calls_only_prepare : calls_only prepare.
Proof.
  unfold prepare. apply calls_only_for_each. intros f. unfold prepare_family.
  apply calls_only_bind; [apply calls_only_call|]. intros has_drop.
  apply calls_only_bind.
  { destruct has_drop; cbn [negb]; cbv iota; [constructor|].
    apply calls_only_bind; [apply calls_only_call|]. intros _. apply calls_only_call. }
  intros _. apply calls_only_bind; [apply calls_only_call|]. intros has_input.
  apply calls_only_bind; [destruct has_input; apply calls_only_call|].
  intros _. apply calls_only_bind; [apply calls_only_call|]. intros has_output.
  apply calls_only_bind; [destruct has_output; apply calls_only_call|].
  intros _. apply calls_only_for_each. intros [tc chain]. unfold prepare_jump.
  apply calls_only_bind; [apply calls_only_call|]. intros first_rule.
  case_bool_decide; [|constructor].
  apply calls_only_bind; [apply calls_only_call|]. intros _. apply calls_only_call.
Qed.

Lemma calls_only_add_block_rules : calls_only add_block_rules.
Proof.
  unfold add_block_rules. apply calls_only_for_each. intros f. apply calls_only_call.
Qed.

Section block_raising.
Context {S : Type} (h : raising_backend S).

Lemma suite_ends_calls_only (w w1 : world S) (p : prog unit) :
  calls_only p → logged w1 = logged w → suite_ends w [] (run_raising h p w1).
Proof.
  intros Hp Hlog. destruct (run_raising_calls_only h p w1 Hp) as [Hlog1 Hout].
  destruct (run_raising h p w1) as [o w2]. simpl in *.
  destruct Hout as [[[] ->]|[[msg ->]|(cls & msg & ->)]].
  - left. exists w2. split; [done|]. rewrite app_nil_r. congruence.
  - right. left. exists msg, w2. split; [done|congruence].
  - right. right. exists cls, msg, w2. split; [done|congruence].
Qed.

Lemma suite_ends_bind {A : Type} (w w1 : world S) lg (m : prog A) (f : A → prog unit) :
  calls_only m → logged w1 = logged w →
  (∀ a w2, logged w2 = logged w → suite_ends w lg (run_raising h (f a) w2)) →
  suite_ends w lg (run_raising h (bind m f) w1).
Proof.
  intros Hm Hlog Hf. rewrite run_raising_bind.
  destruct (run_raising_calls_only h m w1 Hm) as [Hlog1 Hout].
  destruct (run_raising h m w1) as [o w2]. simpl in *.
  destruct Hout as [[a ->]|[[msg ->]|(cls & msg & ->)]]; simpl.
  - apply Hf. congruence.
  - right. left. exists msg, w2. split; [done|congruence].
  - right. right. exists cls, msg, w2. split; [done|congruence].
Qed.

(** the suite of [block] returns, or a call in it raised and nothing was
    logged *)
Lemma run_raising_block_try doc (w : world S) :
  suite_ends w (block_log doc)
    (run_raising h (block_try doc (default "allow" (bl_policy doc))) w).
Proof.
  unfold block_try, block_log.
  apply suite_ends_bind; [apply calls_only_prepare|done|]. intros _ w1 Hw1.
  apply suite_ends_bind;
    [rewrite block_networks_batches; apply calls_only_two_batches|done|].
  intros _ w2 Hw2. repeat case_bool_decide.
  - apply suite_ends_calls_only; [|done].
    rewrite block_ports_batches. apply calls_only_two_batches.
  - apply suite_ends_calls_only; [|done].
    apply calls_only_bind; [rewrite block_ports_batches; apply calls_only_two_batches|].
    intros _. apply calls_only_add_block_rules.
  - left. eexists. split; [reflexivity|]. simpl. by rewrite Hw2.
Qed.

Lemma run_raising_Try {A : Type} (body : prog unit) (ex : string → prog unit)
    (k : prog A) (w : world S) :
  run_raising h (Try body ex k) w =
    match run_raising h body w with
    | (Returns _, w') => run_raising h k w'
    | (Raises (IPTCError msg), w') =>
        match run_raising h (ex msg) w' with
        | (Returns _, w'') => run_raising h k w''
        | (Raises e, w'') => (Raises e, w'')
        | (Escapes cls m, w'') => (Escapes cls m, w'')
        end
    | (Raises e, w') => (Raises e, w')
    | (Escapes cls m, w') => (Escapes cls m, w')
    end.
Proof. done. Qed.

Lemma run_raising_block_except e (w : world S) :
  run_raising h (block_except e) w =
    (Raises (TypeError "debug() missing 1 required positional argument: 'msg'"),
     World (filter_state w) (logged w ++ [(ERROR, "Error while updating iptables: " +:+ e)])).
Proof. done. Qed.

(** X5: for every backend, whose calls may answer, raise [IPTCError] or
    raise an exception of another class, and for every document and world,
    [block] ends in one of three ways.  No call raised: [block] returns in
    the state its [try] suite reached and has logged nothing but the
    unknown-policy error, if the policy is unknown.  A call raised
    [IPTCError]: [block] has logged exactly one record, the error with the
    message, and raises the [TypeError] of [logger.debug(exc_info=True)].  A
    call raised an exception of another class: that exception leaves
    [block], which has logged nothing.  So [block] never passes an
    [IPTCError] on, never raises [KeyError], and never logs the reboot
    hint. *)
Theorem block_outcomes (doc : blocklist) (w : world S) :
  (∃ w', run_raising h (block_try doc (default "allow" (bl_policy doc))) w =
           (Returns tt, w') ∧
         run_raising h (block doc) w =
           (Returns tt, World (filter_state w') (logged w ++ block_log doc))) ∨
  (∃ msg w',
     run_raising h (block_try doc (default "allow" (bl_policy doc))) w =
       (Raises (IPTCError msg), w') ∧
     run_raising h (block doc) w =
       (Raises (TypeError "debug() missing 1 required positional argument: 'msg'"),
        World (filter_state w')
          (logged w ++ [(ERROR, "Error while updating iptables: " +:+ msg)]))) ∨
  (∃ cls msg w',
     run_raising h (block_try doc (default "allow" (bl_policy doc))) w =
       (Escapes cls msg, w') ∧
     run_raising h (block doc) w = (Escapes cls msg, World (filter_state w') (logged w))).
Proof.
  destruct (run_raising_block_try doc w)
    as [(w' & Hbody & Hlog)|[(msg & w' & Hbody & Hlog)|(cls & msg & w' & Hbody & Hlog)]].
  - left. exists w'. split; [done|]. unfold block.
    rewrite run_raising_Try, Hbody. destruct w'. simpl in *. by rewrite Hlog.
  - right. left. exists msg, w'. split; [done|]. unfold block.
    rewrite run_raising_Try, Hbody, run_raising_block_except. by rewrite Hlog.
  - right. right. exists cls, msg, w'. split; [done|]. unfold block.
    rewrite run_raising_Try, Hbody. destruct w'. simpl in Hlog. by rewrite Hlog.
Qed.

End block_raising.

(** on a backend that raises nothing but [IPTCError], [run_raising] is
    [run] *)
Lemma run_raising_iptc_only {S A : Type} (h : backend S) (p : prog A) (w : world S) :
  run_raising (iptc_only h) p w = (outcome_of (run h p w).1, (run h p w).2).
Proof.
  revert w. induction p as [A a|A X c k IH|A lvl msg k IH|A e|A body IHb ex IHe k IHk]
    using prog_ind; intros w; simpl.
  - done.
  - unfold iptc_only. destruct (h X c (filter_state w)) as [[msg|x] s]; [done|apply IH].
  - apply IH.
  - done.
  - rewrite IHb. destruct (run h body w) as [[[]|[msg|msg|key]] w']; simpl; try done.
    rewrite IHe. destruct (run h (ex msg) w') as [[[]|e] w'']; simpl; [apply IHk|done].
Qed.

(** a [ValueError] of the first call leaves [block]; nothing is logged *)
Example block_value_error :
  run_raising bad_value (block allow_doc) (World tt []) =
    (Escapes "ValueError" "invalid rule", World tt []).
Proof. vm_compute. reflexivity. Qed.

(** X6: [block] reads its document with defaults: the policy defaults to
    ['allow'] and each list to the empty list, and only the port list of
    the policy in force is looked at.  Two documents that agree on the
    policy in force, on the networks and on that port list give the same
    program. *)
Theorem block_effective (doc doc' : blocklist) :
  default "allow" (bl_policy doc) = default "allow" (bl_policy doc') →
  default [] (bl_block_networks doc) = default [] (bl_block_networks doc') →
  (default "allow" (bl_policy doc) = "allow" →
     default [] (bl_block_ports doc) = default [] (bl_block_ports doc')) →
  (default "allow" (bl_policy doc) = "block" →
     default [] (bl_allow_ports doc) = default [] (bl_allow_ports doc')) →
  block doc = block doc'.
Proof.
  intros Hpol Hnets Hallow Hblock. unfold block, block_try.
  rewrite <-Hpol, <-Hnets.
  destruct (decide (default "allow" (bl_policy doc) = "allow")) as [Ha|Ha].
  - by rewrite !bool_decide_true, (Hallow Ha) by done.
  - rewrite !(bool_decide_false _ Ha).
    destruct (decide (default "allow" (bl_policy doc) = "block")) as [Hb|Hb].
    + by rewrite !bool_decide_true, (Hblock Hb) by done.
    + by rewrite !(bool_decide_false _ Hb).
Qed.

Lemma block_effective_witness :
  block (Blocklist None None None (Some [("0.0.0.0", "tcp", 22%Z, false)])) =
  block (Blocklist (Some "allow") (Some []) (Some []) None).
Proof.
  apply (block_effective
           (Blocklist None None None (Some [("0.0.0.0", "tcp", 22%Z, false)]))
           (Blocklist (Some "allow") (Some []) (Some []) None)).
  - reflexivity.
  - reflexivity.
  - reflexivity.
  - simpl. intros Hpol. discriminate Hpol.
Defined.

(** ** [block] on the backend *)

Lemma has_chains_prepared (st : state) c :
  c = INPUT_CHAIN ∨ c = OUTPUT_CHAIN → has_chains (prepared st) c = true.
Proof.
  intros Hc. apply has_chains_spec. intros f.
  by destruct (lookup_prepared_policy_chain st c f Hc) as [p ->].
Qed.

Lemma run_block_backend (st : state) lg doc :
  builtin_chains st = true →
  run handle (block doc) (World st lg) =
    (Ok tt, World (reconciled doc st) (lg ++ block_log doc)).
Proof.
  intros Hb. apply run_block_ok.
  unfold block_try, reconciled, policy_step, block_log, output_rules.
  set (policy := default "allow" (bl_policy doc)).
  set (st2 := replaced OUTPUT_CHAIN _ _ (prepared st)).
  assert (has_chains st2 INPUT_CHAIN = true) as Hc2
    by (apply has_chains_replaced, has_chains_prepared; by left).
  rewrite (run_seq_ok _ _ _ _ _ _ (run_prepare st lg Hb)).
  rewrite (run_seq_ok _ _ _ _ _ _
             (run_block_networks (prepared st) lg _
                (has_chains_prepared st _ (or_intror eq_refl)))).
  fold st2. destruct (decide (policy = "allow")) as [Ha|Ha].
  - rewrite !bool_decide_true by done. rewrite app_nil_r. by apply run_block_ports.
  - rewrite !(bool_decide_false _ Ha).
    destruct (decide (policy = "block")) as [Hbl|Hbl].
    + rewrite !bool_decide_true by done. rewrite app_nil_r.
      rewrite (run_seq_ok _ _ _ _ _ _ (run_block_ports st2 lg false _ Hc2)).
      apply run_add_block_rules. by apply has_chains_replaced.
    + rewrite !(bool_decide_false _ Hbl). apply run_logger_error.
Qed.

Lemma lookup_replaced_eq (st : state) chain rules4 rules6 (f : bool) :
  replaced chain rules4 rules6 st !! (TABLE, chain, f) =
    (λ ch, Chain (if f then rules6 else rules4) (chain_policy ch))
      <$> st !! (TABLE, chain, f).
Proof. by rewrite lookup_replaced, decide_True. Qed.

Lemma lookup_replaced_ne (st : state) chain rules4 rules6 t c (f : bool) :
  ¬ (t = TABLE ∧ c = chain) →
  replaced chain rules4 rules6 st !! (t, c, f) = st !! (t, c, f).
Proof. intros Hne. by rewrite lookup_replaced, decide_False. Qed.

Lemma lookup_deny_both_eq (st : state) (f : bool) :
  deny_family true (deny_family false st) !! (TABLE, INPUT_CHAIN, f) =
    (λ ch, Chain (default_deny (chain_rules ch)) (chain_policy ch))
      <$> st !! (TABLE, INPUT_CHAIN, f).
Proof.
  destruct f.
  - rewrite lookup_deny_family, decide_True by done.
    by rewrite lookup_deny_family, decide_False.
  - rewrite lookup_deny_family, decide_False by done.
    by rewrite lookup_deny_family, decide_True.
Qed.

Lemma lookup_deny_both_ne (st : state) t c (f : bool) :
  ¬ (t = TABLE ∧ c = INPUT_CHAIN) →
  deny_family true (deny_family false st) !! (t, c, f) = st !! (t, c, f).
Proof.
  intros Hne. rewrite !lookup_deny_family.
  rewrite !decide_False; [done|intros [= -> -> _]; by apply Hne..].
Qed.

Lemma lookup_policy_step_eq (st : state) doc (f : bool) p :
  st !! (TABLE, INPUT_CHAIN, f) = Some (Chain [] p) →
  policy_step doc st !! (TABLE, INPUT_CHAIN, f) = Some (Chain (input_rules doc f) p).
Proof.
  intros Hst. unfold policy_step, input_rules.
  repeat case_bool_decide.
  - rewrite lookup_replaced_eq, Hst. by destruct f.
  - rewrite lookup_deny_both_eq, lookup_replaced_eq, Hst. by destruct f.
  - done.
Qed.

Lemma lookup_policy_step_ne (st : state) doc t c (f : bool) :
  ¬ (t = TABLE ∧ c = INPUT_CHAIN) →
  policy_step doc st !! (t, c, f) = st !! (t, c, f).
Proof.
  intros Hne. unfold policy_step. repeat case_bool_decide.
  - by apply lookup_replaced_ne.
  - rewrite lookup_deny_both_ne by done. by apply lookup_replaced_ne.
  - done.
Qed.

Lemma lookup_reconciled (st : state) doc t c f :
  reconciled doc st !! (t, c, f) =
    if decide (t = TABLE) then reconciled_chain doc f c (st !! (t, c, f))
    else st !! (t, c, f).
Proof.
  unfold reconciled, reconciled_chain.
  destruct (decide (t = TABLE)) as [->|Ht].
  - destruct (decide (c = INPUT_CHAIN)) as [->|Hci].
    + apply lookup_policy_step_eq.
      rewrite lookup_replaced_ne by (by intros [_ [=]]).
      by rewrite lookup_prepared, decide_True.
    + rewrite lookup_policy_step_ne by (by intros [_ ?]).
      destruct (decide (c = OUTPUT_CHAIN)) as [->|Hco].
      * rewrite lookup_replaced_eq, lookup_prepared, decide_True by done.
        unfold output_rules. by destruct f.
      * rewrite lookup_replaced_ne by (by intros [_ ?]).
        by rewrite lookup_prepared, decide_True.
  - rewrite lookup_policy_step_ne, lookup_replaced_ne by (by intros [? _]).
    by rewrite lookup_prepared, decide_False.
Qed.

Lemma reconciled_chain_absorbs doc doc' f c o :
  reconciled_chain doc' f c (reconciled_chain doc f c o) = reconciled_chain doc' f c o.
Proof.
  unfold reconciled_chain. repeat case_decide; try done.
  apply prepared_chain_idem.
Qed.

Lemma reconciled_absorbs (st : state) doc doc' :
  reconciled doc' (reconciled doc st) = reconciled doc' st.
Proof.
  apply map_eq. intros [[t c] f]. rewrite !lookup_reconciled.
  case_decide; [apply reconciled_chain_absorbs|done].
Qed.

Lemma builtin_chains_reconciled (st : state) doc :
  builtin_chains st = true → builtin_chains (reconciled doc st) = true.
Proof.
  rewrite !builtin_chains_spec. intros Hb f. rewrite !lookup_reconciled, !decide_True by done.
  destruct (Hb f) as [[ci ->] [co ->]]. done.
Qed.

(** X7: on the backend modelled from the spec, the state [block] leads to
    depends on the last document only: from a state with the built-in
    chains, [block] with one document and then [block] with a second one
    both return, and the state is the one that [block] with the second
    document alone leads to.  With twice the same document: a second
    [block] changes nothing. *)
Theorem block_converges (st : state) (lg : list (level * string))
    (doc doc' : blocklist) :
  builtin_chains st = true →
  ∃ st1 lg1 st2 lg2 lg2',
    run handle (block doc) (World st lg) = (Ok tt, World st1 lg1) ∧
    run handle (block doc') (World st1 lg1) = (Ok tt, World st2 lg2) ∧
    run handle (block doc') (World st lg) = (Ok tt, World st2 lg2') ∧
    run handle (block doc') (World st2 lg2) = (Ok tt, World st2 (lg2 ++ block_log doc')).
Proof.
  intros Hb. eexists _, _, _, _, _. split_and!.
  - by apply run_block_backend.
  - apply run_block_backend. by apply builtin_chains_reconciled.
  - rewrite run_block_backend by done. by rewrite reconciled_absorbs.
  - rewrite run_block_backend by by do 2 apply builtin_chains_reconciled.
    by rewrite reconciled_absorbs.
Qed.

Lemma block_converges_witness :
  ∃ st1 lg1 st2 lg2 lg2',
    run handle (block block_doc) (World fresh_filter []) = (Ok tt, World st1 lg1) ∧
    run handle (block allow_doc) (World st1 lg1) = (Ok tt, World st2 lg2) ∧
    run handle (block allow_doc) (World fresh_filter []) = (Ok tt, World st2 lg2') ∧
    run handle (block allow_doc) (World st2 lg2) =
      (Ok tt, World st2 (lg2 ++ block_log allow_doc)).
Proof.
  apply (block_converges fresh_filter [] block_doc allow_doc). vm_compute; reflexivity.
Defined.

(** Going from policy ['block'] to policy ['allow'] takes the two accept
    rules and the final drop out of the input-policy chain again. *)
Example block_then_allow :
  let st1 := filter_state (run handle (block block_doc) (World fresh_filter [])).2 in
  let st2 := filter_state (run handle (block allow_doc) (World st1 [])).2 in
  rules_of st1 (TABLE, INPUT_CHAIN, false) =
    Some [LO_ACCEPT; CONNTRACK_ACCEPT; port_rule false ("0.0.0.0", "tcp", 22%Z);
          DROP_RULE] ∧
  rules_of st2 (TABLE, INPUT_CHAIN, false) =
    Some [port_rule true ("0.0.0.0", "tcp", 23%Z)] ∧
  rules_of st2 (TABLE, OUTPUT_CHAIN, false) = Some [].
Proof. split_and!; vm_compute; reflexivity. Qed.

(** X8: on the backend modelled from the spec, from every state with the
    built-in chains [block] returns, and whatever the policy: the log-drop
    chain exists, INPUT and OUTPUT begin with the jump to their policy
    chain, and the output-policy chain of each family holds the drop rules
    of the document's networks of that family, in input order.  With policy
    ['allow'] (or none) the input-policy chain holds the drop-to-log rules
    of [block_ports] and nothing is logged; with a policy that is neither
    ['allow'] nor ['block'] the input-policy chain is empty and one error
    is logged. *)
Theorem block_end_state (st : state) (lg : list (level * string)) (doc : blocklist) :
  builtin_chains st = true →
  ∃ st' lg', run handle (block doc) (World st lg) = (Ok tt, World st' lg') ∧
    (∀ f : bool,
       is_Some (st' !! (TABLE, DROP_CHAIN, f)) ∧
       (∀ target_chain chain, (target_chain, chain) ∈ jump_pairs →
          ∃ l, rules_of st' (TABLE, chain, f) = Some l ∧
               head l = Some (jump_to target_chain)) ∧
       rules_of st' (TABLE, OUTPUT_CHAIN, f) =
         Some (map network_dict (family_of f (default [] (bl_block_networks doc))))) ∧
    (default "allow" (bl_policy doc) = "allow" →
       lg' = lg ∧
       ∀ f : bool,
         rules_of st' (TABLE, INPUT_CHAIN, f) =
           Some (map (port_rule true) (family_of f (default [] (bl_block_ports doc))))) ∧
    (default "allow" (bl_policy doc) ≠ "allow" →
     default "allow" (bl_policy doc) ≠ "block" →
       lg' = lg ++ [(ERROR, unknown_policy_msg (default "allow" (bl_policy doc)))] ∧
       ∀ f : bool, rules_of st' (TABLE, INPUT_CHAIN, f) = Some []).
Proof.
  intros Hb. eexists _, _. split; [by apply run_block_backend|].
  unfold rules_of, block_log. split_and!.
  - intros f. split_and!.
    + rewrite lookup_reconciled, decide_True by done. done.
    + intros tc chain Hpair. rewrite lookup_reconciled, decide_True by done.
      destruct (lookup_prepared_builtin st f tc chain Hb Hpair) as (ch & Hch & Hch').
      rewrite lookup_prepared, decide_True in Hch' by done.
      assert (reconciled_chain doc f chain (st !! (TABLE, chain, f)) =
                prepared_chain chain (st !! (TABLE, chain, f))) as ->.
      { unfold reconciled_chain, jump_pairs in *. set_unfold in Hpair.
        destruct Hpair as [[= -> ->]|[[= -> ->]|[]]]; by rewrite !decide_False. }
      rewrite Hch'. eexists. split; [done|]. apply head_heal.
    + rewrite lookup_reconciled, decide_True by done. unfold reconciled_chain.
      by rewrite decide_False, decide_True.
  - intros Ha. rewrite bool_decide_true by done. split; [apply app_nil_r|].
    intros f. rewrite lookup_reconciled, decide_True by done.
    unfold reconciled_chain, input_rules. by rewrite decide_True, bool_decide_true.
  - intros Ha Hbl. rewrite !bool_decide_false by done. split; [done|].
    intros f. rewrite lookup_reconciled, decide_True by done.
    unfold reconciled_chain, input_rules. by rewrite decide_True, !bool_decide_false.
Qed.

Lemma block_end_state_witness :
  ∃ st' lg', run handle (block allow_doc) (World tampered_filter []) =
               (Ok tt, World st' lg') ∧
    (∀ f : bool,
       is_Some (st' !! (TABLE, DROP_CHAIN, f)) ∧
       (∀ target_chain chain, (target_chain, chain) ∈ jump_pairs →
          ∃ l, rules_of st' (TABLE, chain, f) = Some l ∧
               head l = Some (jump_to target_chain)) ∧
       rules_of st' (TABLE, OUTPUT_CHAIN, f) =
         Some (map network_dict
                 (family_of f (default [] (bl_block_networks allow_doc))))) ∧
    (default "allow" (bl_policy allow_doc) = "allow" →
       lg' = [] ∧
       ∀ f : bool,
         rules_of st' (TABLE, INPUT_CHAIN, f) =
           Some (map (port_rule true)
                   (family_of f (default [] (bl_block_ports allow_doc))))) ∧
    (default "allow" (bl_policy allow_doc) ≠ "allow" →
     default "allow" (bl_policy allow_doc) ≠ "block" →
       lg' = [] ++ [(ERROR, unknown_policy_msg
                              (default "allow" (bl_policy allow_doc)))] ∧
       ∀ f : bool, rules_of st' (TABLE, INPUT_CHAIN, f) = Some []).
Proof. apply (block_end_state tampered_filter [] allow_doc). vm_compute; reflexivity. Defined.

(** ** Port rules, whatever the protocol is named *)

Lemma port_rule_core_holds allow host proto port :
  port_rule_core allow (host, proto, port) (port_rule allow (host, proto, port)).
Proof.
  unfold port_rule_core, port_rule. split_and!.
  - destruct (unspecified host); [apply lookup_delete_eq|apply port_dict_dst].
  - destruct (unspecified host); rewrite ?lookup_delete_ne by done;
      apply lookup_insert_eq.
  - intros k Hk.
    assert (k ≠ "protocol" ∧ k ≠ proto ∧ k ≠ "dst" ∧ k ≠ "target")
      as (? & ? & ? & ?) by (split_and!; intros ->; apply Hk; set_solver).
    destruct (unspecified host); rewrite ?lookup_delete_ne by done;
      unfold port_dict; by rewrite !lookup_insert_ne by done.
Qed.

Lemma Forall2_port_rule_core allow (l : list (string * string * Z)) :
  Forall2 (port_rule_core allow) l (map (port_rule allow) l).
Proof.
  induction l as [|[[host proto] port] l IH]; simpl; constructor; [|done].
  apply port_rule_core_holds.
Qed.

(** X9: for every list of entries, whatever the protocols are named,
    [block_ports] raises no [KeyError] and makes exactly two batch calls on
    WOTT_INPUT, IPv4 first; the list of a family has one rule per entry of
    that family, in input order, and each rule has a ['dst'] match equal to
    the host exactly when the host is neither ['0.0.0.0'] nor ['::'], the
    target WOTT_LOG_DROP when [allow] is true and ACCEPT otherwise, and no
    key besides ['protocol'], the protocol's name, ['dst'] and
    ['target']. *)
Theorem block_ports_any_protocol (allow : bool) (ports_data : list port_entry) :
  ∃ rules4 rules6,
    block_ports allow ports_data = two_batches TABLE INPUT_CHAIN rules4 rules6 ∧
    Forall2 (port_rule_core allow) (family_of false ports_data) rules4 ∧
    Forall2 (port_rule_core allow) (family_of true ports_data) rules6.
Proof.
  eexists _, _. split; [apply block_ports_batches|].
  split; apply Forall2_port_rule_core.
Qed.

Lemma singleton_dport_inj (p p' : string) :
  ({[ "dport" := p ]} : gmap string string) = {[ "dport" := p' ]} → p = p'.
Proof.
  intros Heq. assert (({[ "dport" := p ]} : gmap string string) !! "dport" = Some p')
    as Hl by (rewrite Heq; apply lookup_singleton_eq).
  rewrite lookup_singleton_eq in Hl. by injection Hl.
Qed.

(** X10: for protocols not named like a fixed key, two entries get the same
    rule exactly when they have the same protocol and port and either the
    same host or hosts that are both all-zeros addresses: the rule tells
    entries apart except that ['0.0.0.0'] and ['::'] are one. *)
Theorem port_rule_same (allow : bool) (host host' proto proto' : string) (port port' : Z) :
  proto ∉ fixed_keys → proto' ∉ fixed_keys →
  port_rule allow (host, proto, port) = port_rule allow (host', proto', port') ↔
    proto = proto' ∧ port = port' ∧
    (host = host' ∨ unspecified host = true ∧ unspecified host' = true).
Proof.
  intros Hp Hp'.
  pose proof (port_rule_plain allow host proto port Hp) as (Hpr & Hdp & Hdst & _).
  pose proof (port_rule_plain allow host' proto' port' Hp') as (Hpr' & Hdp' & Hdst' & _).
  split.
  - intros Heq. rewrite Heq in Hpr, Hdp, Hdst.
    rewrite Hpr' in Hpr. injection Hpr as <-.
    rewrite Hdp' in Hdp.
    assert (({[ "dport" := pretty port' ]} : gmap string string) =
              {[ "dport" := pretty port ]}) as Hport by congruence.
    apply singleton_dport_inj, (inj pretty) in Hport as <-.
    split_and!; try done. rewrite Hdst' in Hdst.
    destruct (unspecified host), (unspecified host'); try done.
    + by right.
    + left. by injection Hdst.
  - intros (<- & <- & [<-|[Hu Hu']]); [done|].
    unfold port_rule. rewrite Hu, Hu'. unfold port_dict.
    rewrite !(delete_insert_ne _ "dst" "target") by done.
    by rewrite !delete_insert_eq.
Qed.

Lemma port_rule_same_witness :
  port_rule true ("0.0.0.0", "tcp", 80%Z) = port_rule true ("::", "tcp", 80%Z) ↔
    "tcp" = "tcp" ∧ 80%Z = 80%Z ∧
    ("0.0.0.0" = "::" ∨ unspecified "0.0.0.0" = true ∧ unspecified "::" = true).
Proof.
  apply (port_rule_same true "0.0.0.0" "::" "tcp" "tcp" 80 80).
  - apply (proj1 (bool_decide_eq_false _)). vm_compute; reflexivity.
  - apply (proj1 (bool_decide_eq_false _)). vm_compute; reflexivity.
Defined.

(** ** [add_rules] *)

Lemma family_split (rules : list (rule * bool)) :
  map fst (filter (λ ri : rule * bool, false = ri.2) rules) ++
  map fst (filter (λ ri : rule * bool, true = ri.2) rules) ≡ₚ rules.*1.
Proof.
  induction rules as [|[r []] rules IH]; [done|..].
  - rewrite filter_cons_False, filter_cons_True by done. simpl.
    by rewrite <-Permutation_middle, IH.
  - rewrite filter_cons_True, filter_cons_False by done. simpl. by rewrite IH.
Qed.

(** X11: [add_rules] splits any rule list in two batch calls on the given
    table and chain, IPv4 first: together the two lists are the rules of the
    input, none lost and none doubled; each list keeps the input order; and
    a rule is in the list of a family exactly when the input pairs it with
    that family. *)
Theorem add_rules_split (table chain : string) (rules : list (rule * bool)) :
  ∃ rules4 rules6,
    add_rules table chain rules = two_batches table chain rules4 rules6 ∧
    rules4 ++ rules6 ≡ₚ rules.*1 ∧
    rules4 `sublist_of` rules.*1 ∧ rules6 `sublist_of` rules.*1 ∧
    ∀ r, (r ∈ rules4 ↔ (r, false) ∈ rules) ∧ (r ∈ rules6 ↔ (r, true) ∈ rules).
Proof.
  eexists _, _. split; [apply add_rules_batches|]. split_and!.
  - apply family_split.
  - apply (fmap_sublist fst), sublist_filter.
  - apply (fmap_sublist fst), sublist_filter.
  - intros r. split.
    + rewrite list_elem_of_fmap. setoid_rewrite list_elem_of_filter. split.
      * intros ([r' b] & -> & Hb & Hin). simpl in *. by subst b.
      * intros Hin. by exists (r, false).
    + rewrite list_elem_of_fmap. setoid_rewrite list_elem_of_filter. split.
      * intros ([r' b] & -> & Hb & Hin). simpl in *. by subst b.
      * intros Hin. by exists (r, true).
Qed.

(** ** The overlap check of the locker test *)

Section find_parallel_facts.
Import test_agent.
Context {T : Type} (le : T → T → bool).

Lemma find_in_second_true (begin1 end1 : T) second_pairs :
  find_in_second le begin1 end1 second_pairs = true ↔
    ∃ i2, i2 ∈ second_pairs ∧ (within le begin1 i2 = true ∨ within le end1 i2 = true).
Proof.
  induction second_pairs as [|[b2 e2] rest IH]; simpl.
  - split; [done|]. intros (i2 & Hin & _). by apply elem_of_nil in Hin.
  - destruct (within le begin1 (b2, e2) || within le end1 (b2, e2)) eqn:Hw.
    + split; [|done]. intros _. exists (b2, e2). split; [by left|].
      by apply orb_true_iff.
    + rewrite IH. apply orb_false_iff in Hw as [Hw1 Hw2]. split.
      * intros (i2 & Hin & Hi2). exists i2. split; [by right|done].
      * intros (i2 & Hin & Hi2). apply elem_of_cons in Hin as [->|Hin]; [|by eauto].
        destruct Hi2; congruence.
Qed.

Lemma find_parallel_true first_pairs second_pairs :
  find_parallel le first_pairs second_pairs = true ↔
    ∃ i1 i2, i1 ∈ first_pairs ∧ i2 ∈ second_pairs ∧
      (within le i1.1 i2 = true ∨ within le i1.2 i2 = true).
Proof.
  induction first_pairs as [|[b1 e1] rest IH]; simpl.
  - split; [done|]. intros (i1 & i2 & Hin & _). by apply elem_of_nil in Hin.
  - destruct (find_in_second le b1 e1 second_pairs) eqn:Hf.
    + split; [|done]. intros _. apply find_in_second_true in Hf as (i2 & Hin & Hi2).
      exists (b1, e1), i2. split; [by left|done].
    + rewrite IH. split.
      * intros (i1 & i2 & Hin1 & Hin2 & Hw). exists i1, i2. split; [by right|done].
      * intros (i1 & i2 & Hin1 & Hin2 & Hw).
        apply elem_of_cons in Hin1 as [->|Hin1]; [|by eauto 6].
        assert (find_in_second le b1 e1 second_pairs = true) as Hf'
          by (apply find_in_second_true; eauto).
        congruence.
Qed.

(** X12: [find_parallel], a double loop that stops at the first hit,
    returns true exactly when some run of the first list begins or ends
    within some run of the second list (bounds included); in particular it
    returns false when either list is empty. *)
Theorem find_parallel_spec (first_pairs second_pairs : list (T * T)) :
  (find_parallel le first_pairs second_pairs = true ↔
     ∃ begin1 end1 begin2 end2,
       (begin1, end1) ∈ first_pairs ∧ (begin2, end2) ∈ second_pairs ∧
       (le begin2 begin1 = true ∧ le begin1 end2 = true ∨
        le begin2 end1 = true ∧ le end1 end2 = true)) ∧
  find_parallel le [] second_pairs = false ∧
  find_parallel le first_pairs [] = false.
Proof.
  split_and!.
  - rewrite find_parallel_true. unfold within. split.
    + intros ([b1 e1] & [b2 e2] & Hin1 & Hin2 & Hw). exists b1, e1, b2, e2.
      simpl in Hw. rewrite !andb_true_iff in Hw. done.
    + intros (b1 & e1 & b2 & e2 & Hin1 & Hin2 & Hw). exists (b1, e1), (b2, e2).
      simpl. rewrite !andb_true_iff. done.
  - done.
  - induction first_pairs as [|[b1 e1] rest IH]; [done|]. simpl. apply IH.
Qed.

(** X13: when [<=] on the timestamps is total and transitive and no run
    ends before it begins, [is_parallel] on two lists answers true exactly
    when a run of the first list and a run of the second share a point in
    time; the answer does not depend on the order of the two lists. *)
Theorem is_parallel_overlap (first_pairs second_pairs : list (T * T)) :
  (∀ x y, le x y = true ∨ le y x = true) →
  (∀ x y z, le x y = true → le y z = true → le x z = true) →
  well_formed le first_pairs → well_formed le second_pairs →
  (is_parallel le [first_pairs; second_pairs] = Some true ↔
     ∃ i1 i2, i1 ∈ first_pairs ∧ i2 ∈ second_pairs ∧ overlap le i1 i2) ∧
  is_parallel le [first_pairs; second_pairs] = is_parallel le [second_pairs; first_pairs].
Proof.
  intros Htotal Htrans Hwf1 Hwf2. unfold well_formed in *.
  rewrite Forall_forall in Hwf1, Hwf2. split.
  - simpl. split.
    + intros [= Hpar]. apply orb_true_iff in Hpar as [Hpar|Hpar];
        apply find_parallel_true in Hpar as (j1 & j2 & Hin1 & Hin2 & Hw).
      * exists j1, j2. split_and!; try done.
        pose proof (Hwf1 _ Hin1). pose proof (Hwf2 _ Hin2).
        unfold within, overlap in *. rewrite !andb_true_iff in Hw.
        destruct Hw as [[??]|[??]]; split; eauto.
      * exists j2, j1. split_and!; try done.
        pose proof (Hwf1 _ Hin2). pose proof (Hwf2 _ Hin1).
        unfold within, overlap in *. rewrite !andb_true_iff in Hw.
        destruct Hw as [[??]|[??]]; split; eauto.
    + intros (i1 & i2 & Hin1 & Hin2 & Ho1 & Ho2). f_equal. apply orb_true_iff.
      destruct (Htotal i2.1 i1.1) as [Hle|Hle].
      * left. apply find_parallel_true. exists i1, i2. split_and!; try done.
        left. unfold within. by rewrite Hle, Ho1.
      * right. apply find_parallel_true. exists i2, i1. split_and!; try done.
        left. unfold within. by rewrite Hle, Ho2.
  - simpl. by rewrite orb_comm.
Qed.

End find_parallel_facts.

Lemma is_parallel_overlap_witness :
  (is_parallel Z.leb [[(0, 10)%Z; (50, 60)%Z]; [(20, 30)%Z; (55, 70)%Z]] = Some true ↔
     ∃ i1 i2, i1 ∈ [(0, 10)%Z; (50, 60)%Z] ∧ i2 ∈ [(20, 30)%Z; (55, 70)%Z] ∧
       overlap Z.leb i1 i2) ∧
  is_parallel Z.leb [[(0, 10)%Z; (50, 60)%Z]; [(20, 30)%Z; (55, 70)%Z]] =
    is_parallel Z.leb [[(20, 30)%Z; (55, 70)%Z]; [(0, 10)%Z; (50, 60)%Z]].
Proof.
  apply (is_parallel_overlap Z.leb [(0, 10)%Z; (50, 60)%Z] [(20, 30)%Z; (55, 70)%Z]).
  - intros x y. rewrite !Z.leb_le. lia.
  - intros x y z. rewrite !Z.leb_le. lia.
  - unfold well_formed. repeat constructor.
  - unfold well_formed. repeat constructor.
Defined.
